(** * asm: the TTL cache and the process lock of the skill manager

    A shallow embedding of [src/asm/util.py] ([cached_property],
    [AsmProcessLock]) and of the guarded region of [main] in
    [src/asm/__main__.py], with the properties the specification states
    about them.

    Conventions.
    - Python objects are identified by a [positive] (their identity); a
      dictionary lives in a store, under an address, so that two attributes
      holding the same dictionary object are visible as such.
    - Clock readings ([time.monotonic()]) and the time-to-live are exact
      seconds, in [Q]. [CachedProperty] compares elapsed times exactly;
      the binary64 subtraction [now - last_update] of the code is in
      [Binary64] and [CachedProperty64], and [binary64_agrees] tells where
      the two part: in the rounding gap just above [ttl].
    - A Python call that may raise returns an [outcome]. *)

From Stdlib Require Import QArith Lqa Ascii Qround Qpower.
From stdpp Require Import gmap strings list fin_maps.

Local Open Scope Q_scope.

(** ** Exceptions and outcomes *)

(** The exceptions the modelled code tells apart.  [AsmException] stands for
    the class and all its subclasses; [cls] is the [__name__] of the class of
    the instance raised, [msg] its [str]. *)
Inductive exn : Type :=
  | KeyError
  | AttributeError
  | PermissionError
  | FileNotFoundError
  | AsmException (cls msg : string)
  | OtherException (cls msg : string).

Inductive outcome (A : Type) : Type :=
  | Ret (a : A)
  | Raise (e : exn).
Arguments Ret {A} a.
Arguments Raise {A} e.

(** [x > y] on rationals, as a boolean. *)
Definition Qgtb (x y : Q) : bool := negb (Qle_bool x y).

(** ** The TTL cache: [cached_property] *)

Module CachedProperty.

(** Object identities and dictionary addresses. *)
Abbreviation inst := positive (only parsing).
Abbreviation addr := positive (only parsing).

Section cache.

(** [V] is the type of the values the wrapped computations return, [S] the
    state they act on: everything outside the cache dictionaries. *)
Context {V S : Type}.

(** A cache dictionary: attribute name to [(value, last_update)]. *)
Abbreviation dict := (gmap string (V * Q)).

(** The part of the program state the descriptor works on.
    - [attrs]: the [_cache] attribute of each instance; no binding means the
      instance has no such attribute ([AttributeError] on access);
    - [store]: the dictionary objects;
    - [env]: the state of the wrapped computations;
    - [calls]: the log of the invocations [self.fget(inst)], as
      [(self.__name__, inst)], oldest first. *)
Record world : Type := World {
  attrs : gmap inst addr;
  store : gmap addr dict;
  env : S;
  calls : list (string * inst)
}.

(** The descriptor object after [__init__] and [__call__]. The wrapped
    computation receives the instance and acts on [env]: it returns or
    raises, with effects of its own, and leaves the [_cache] attributes and
    dictionaries to the descriptor. *)
Record cached_property : Type := CachedProperty {
  ttl : Q;
  fget : inst -> S -> outcome V * S;
  __name__ : string
}.

(** [def __init__(self, ttl=300)] followed by [__call__(self, fget)], which
    copies [fget.__name__]. *)
Definition default_ttl : Q := 300.

Definition decorate (ttl : option Q) (name : string)
    (fget : inst -> S -> outcome V * S) : cached_property :=
  {| ttl := default default_ttl ttl; fget := fget; __name__ := name |}.

(** The dictionary at an address. Every address an attribute holds is
    allocated (see [heap_ok]), where the default is not taken. *)
Definition deref (w : world) (a : addr) : dict := default ∅ (store w !! a).

(** [inst._cache], as an address. *)
Definition getattr_cache (w : world) (i : inst) : outcome addr :=
  match attrs w !! i with
  | Some a => Ret a
  | None => Raise AttributeError
  end.

(** The body of the [try]:
    [value, last_update = inst._cache[self.__name__]], then the expiry test,
    which raises [AttributeError] itself. [now - last_update] is the elapsed
    time here; [CachedProperty64.try_cached] has the float subtraction. *)
Definition try_cached (d : cached_property) (i : inst) (now : Q) (w : world)
    : outcome V :=
  match getattr_cache w i with
  | Raise e => Raise e
  | Ret a =>
      match deref w a !! __name__ d with
      | None => Raise KeyError
      | Some (value, last_update) =>
          if Qgtb (ttl d) 0 && Qgtb (now - last_update) (ttl d)
          then Raise AttributeError
          else Ret value
      end
  end.

(** [except (KeyError, AttributeError)] *)
Definition caught (e : exn) : bool :=
  match e with
  | KeyError | AttributeError => true
  | _ => false
  end.

Definition set_env (e : S) (w : world) : world :=
  {| attrs := attrs w; store := store w; env := e; calls := calls w |}.

Definition log_call (c : string * inst) (w : world) : world :=
  {| attrs := attrs w; store := store w; env := env w;
     calls := calls w ++ [c] |}.

Definition set_store (a : addr) (m : dict) (w : world) : world :=
  {| attrs := attrs w; store := <[a := m]> (store w); env := env w;
     calls := calls w |}.

(** [try: cache = inst._cache / except AttributeError: cache = inst._cache = {}]:
    the new dictionary is a fresh object. *)
Definition cache_of_inst (i : inst) (w : world) : addr * world :=
  match getattr_cache w i with
  | Ret a => (a, w)
  | Raise _ =>
      let a := fresh (dom (store w)) in
      (a, {| attrs := <[i := a]> (attrs w); store := <[a := ∅]> (store w);
             env := env w; calls := calls w |})
  end.

(** [cache[key] = item] *)
Definition setitem (a : addr) (key : string) (item : V * Q) (w : world)
    : world :=
  set_store a (<[key := item]> (deref w a)) w.

(** The handler: the wrapped computation runs; an exception it raises leaves
    the handler at once, a value is stored with the clock reading taken on
    entry. *)
Definition recompute (d : cached_property) (i : inst) (now : Q) (w : world)
    : outcome V * world :=
  let '(r, e) := fget d i (env w) in
  let w1 := log_call (__name__ d, i) (set_env e w) in
  match r with
  | Raise x => (Raise x, w1)
  | Ret value =>
      let '(cache, w2) := cache_of_inst i w1 in
      (Ret value, setitem cache (__name__ d) (value, now) w2)
  end.

(** [cached_property.__get__(self, inst, owner)]; [now] is the reading
    [time.monotonic()] returns on entry. *)
Definition __get__ (d : cached_property) (i : inst) (now : Q) (w : world)
    : outcome V * world :=
  match try_cached d i now w with
  | Ret value => (Ret value, w)
  | Raise e => if caught e then recompute d i now w else (Raise e, w)
  end.

(** [del inst._cache[name]], the manual invalidation of the docstring. *)
Definition del_cache (name : string) (i : inst) (w : world)
    : outcome unit * world :=
  match getattr_cache w i with
  | Raise e => (Raise e, w)
  | Ret a =>
      match deref w a !! name with
      | None => (Raise KeyError, w)
      | Some _ => (Ret tt, set_store a (delete name (deref w a)) w)
      end
  end.

(** Successive read accesses of one property of one instance, at the given
    clock readings. *)
Fixpoint reads (d : cached_property) (i : inst) (nows : list Q) (w : world)
    : list (outcome V) * world :=
  match nows with
  | [] => ([], w)
  | now :: nows' =>
      let '(r, w1) := __get__ d i now w in
      let '(rs, w2) := reads d i nows' w1 in
      (r :: rs, w2)
  end.

(** *** Observations *)

(** The dictionary an instance caches in, if it has one. *)
Definition cache_dict (w : world) (i : inst) : option dict :=
  match attrs w !! i with
  | Some a => Some (deref w a)
  | None => None
  end.

(** The entry of attribute [name] of instance [i]. *)
Definition entry_of (w : world) (i : inst) (name : string) : option (V * Q) :=
  match cache_dict w i with
  | Some m => m !! name
  | None => None
  end.

(** A read at [now] finds nothing to return: no entry, or an expired one. *)
Definition is_miss (d : cached_property) (i : inst) (now : Q) (w : world)
    : Prop :=
  match entry_of w i (__name__ d) with
  | None => True
  | Some (_, last_update) => 0 < ttl d /\ ttl d < now - last_update
  end.

(** No attribute holds a dangling address, and no two instances hold the same
    dictionary object. *)
Definition heap_ok (w : world) : Prop :=
  (forall i a, attrs w !! i = Some a -> is_Some (store w !! a)) /\
  (forall i j a, attrs w !! i = Some a -> attrs w !! j = Some a -> i = j).

(** The state before any instance has been read. *)
Definition init_world (e : S) : world :=
  {| attrs := ∅; store := ∅; env := e; calls := [] |}.

(** The same descriptor with another time-to-live. *)
Definition with_ttl (t : Q) (d : cached_property) : cached_property :=
  {| ttl := t; fget := fget d; __name__ := __name__ d |}.

(** What client code does with cached properties: read one, or expire one
    by hand. *)
Inductive access_op : Type :=
  | Read (d : cached_property) (i : inst) (now : Q)
  | Invalidate (name : string) (i : inst).

Definition run_op (o : access_op) (w : world) : world :=
  match o with
  | Read d i now => (__get__ d i now w).2
  | Invalidate name i => (del_cache name i w).2
  end.

Definition run_ops (os : list access_op) (w : world) : world :=
  foldl (fun w o => run_op o w) w os.

End cache.

Arguments world : clear implicits.
Arguments cached_property : clear implicits.
Arguments access_op : clear implicits.

End CachedProperty.

(** *** The scenario of the specification

    A property [count] with a time-to-live of one second whose computation
    returns a counter and increments it; read at 0, 0.5 and 1.2 seconds. *)

Module Scenario.

Import CachedProperty.

Definition counter : cached_property nat nat :=
  {| ttl := 1; fget := fun _ n => (Ret n, Datatypes.S n); __name__ := "count" |}.

(** The same computation, cached for ever. *)
Definition counter_forever : cached_property nat nat := with_ttl 0 counter.

(** The same computation with a negative time-to-live. *)
Definition counter_negative : cached_property nat nat := with_ttl (-5) counter.


Definition w0 : world nat nat := init_world 0%nat.

(** After the first read of instance 1, at 0 seconds. *)
Definition w1 : world nat nat := (__get__ counter 1 0 w0).2.

(** After the second read, at 0.5 seconds. *)
Definition w2 : world nat nat := (__get__ counter 1 (1 # 2) w1).2.


(** Two instances that were handed one and the same dictionary object. *)
Definition shared : world nat nat :=
  {| attrs := <[2%positive := 1%positive]> {[1%positive := 1%positive]};
     store := {[1%positive := ∅]}; env := 0%nat; calls := [] |}.

End Scenario.

(** ** The process lock: [AsmProcessLock] *)

Module AsmProcessLock.

Local Open Scope Z_scope.

(** The credentials of a process: user, group and file-creation mask. *)
Record cred : Type := Cred { uid : nat; gid : nat; umask : Z }.

(** A regular file: owner, group, permission bits and content. *)
Record file : Type := File {
  owner : nat;
  group : nat;
  mode : Z;
  content : string
}.

(** The file system, by path. *)
Abbreviation fs := (gmap string file).

(** The permission bits [0o777] and [0o666]. *)
Definition o777 : Z := 511.
Definition o666 : Z := 438.

(** The permission classes of [mode]: the bits [want] (4 read, 2 write,
    1 execute) are looked up in the owner class for the owner, else in the
    group class for a member of the group, else in the class of the others.
    User 0 passes every check. *)
Definition access (c : cred) (f : file) (want : Z) : bool :=
  if (uid c =? 0)%nat then true
  else
    let class :=
      if (uid c =? owner f)%nat then Z.shiftr (mode f) 6
      else if (gid c =? group f)%nat then Z.shiftr (mode f) 3
      else mode f in
    Z.land (Z.land class 7) want =? want.

(** Any user of the host may read and write the file. *)
Definition world_rw (f : file) : Prop :=
  forall c : cred, access c f 6 = true.

(** [os.path.exists(path)] *)
Definition exists_ (path : string) (s : fs) : bool :=
  bool_decide (is_Some (s !! path)).

(** [open(path, '+w')] followed by [close()], in a directory the process
    may create files in: the file is created with the bits [0o666] less the
    mask, or, when it is there, truncated, which takes the permission to
    read and write it. *)
Definition open_w (path : string) (c : cred) (s : fs) : outcome unit * fs :=
  match s !! path with
  | None =>
      (Ret tt,
       <[path := {| owner := uid c; group := gid c;
                    mode := Z.ldiff o666 (umask c); content := "" |}]> s)
  | Some f =>
      if access c f 6
      then (Ret tt,
            <[path := {| owner := owner f; group := group f; mode := mode f;
                         content := "" |}]> s)
      else (Raise PermissionError, s)
  end.

(** [os.chmod(path, m)]: for the owner of the file (and user 0). *)
Definition chmod (path : string) (m : Z) (c : cred) (s : fs)
    : outcome unit * fs :=
  match s !! path with
  | None => (Raise FileNotFoundError, s)
  | Some f =>
      if (uid c =? 0)%nat || (uid c =? owner f)%nat
      then (Ret tt,
            <[path := {| owner := owner f; group := group f; mode := m;
                         content := content f |}]> s)
      else (Raise PermissionError, s)
  end.

Fixpoint ends_with_slash (a : string) : bool :=
  match a with
  | EmptyString => false
  | String c EmptyString => bool_decide (c = "/"%char)
  | String _ rest => ends_with_slash rest
  end.

(** [os.path.join(a, b)] on POSIX paths. *)
Definition join (a b : string) : string :=
  if String.prefix "/" b then b
  else if bool_decide (a = "") || ends_with_slash a then a +:+ b
  else a +:+ "/" +:+ b.

(** What [InterProcessLock.__init__(path)] leaves in the object. *)
Record lock : Type := Lock { path : string; acquired : bool }.

Definition InterProcessLock_init (p : string) : lock :=
  {| path := p; acquired := false |}.

Section init.

(** [tempfile.gettempdir()] *)
Variable tmpdir : string.

Definition lock_path : string := join tmpdir "asm_lock".

(** [AsmProcessLock.__init__(self)], run by a process with credentials [c]. *)
Definition __init__ (c : cred) (s : fs) : outcome lock * fs :=
  if negb (exists_ lock_path s) then
    match open_w lock_path c s with
    | (Raise e, s1) => (Raise e, s1)
    | (Ret _, s1) =>
        match chmod lock_path o777 c s1 with
        | (Raise e, s2) => (Raise e, s2)
        | (Ret _, s2) => (Ret (InterProcessLock_init lock_path), s2)
        end
    end
  else (Ret (InterProcessLock_init lock_path), s).

(** *** Several processes constructing the lock at once

    Each system call of [__init__] is one atomic step; the steps of the
    processes interleave in any order. *)

(** Where a process is in [__init__]: before the test, before [open], before
    [chmod], before [super().__init__], or out of the constructor. *)
Inductive pc : Type :=
  | AtExists
  | AtOpen
  | AtChmod
  | AtSuper
  | Done (r : outcome lock).

Definition is_done (p : pc) : bool :=
  match p with Done _ => true | _ => false end.

(** One step of a process. *)
Definition step1 (c : cred) (p : pc) (s : fs) : pc * fs :=
  match p with
  | AtExists => if negb (exists_ lock_path s) then (AtOpen, s) else (AtSuper, s)
  | AtOpen =>
      match open_w lock_path c s with
      | (Raise e, s1) => (Done (Raise e), s1)
      | (Ret _, s1) => (AtChmod, s1)
      end
  | AtChmod =>
      match chmod lock_path o777 c s with
      | (Raise e, s1) => (Done (Raise e), s1)
      | (Ret _, s1) => (AtSuper, s1)
      end
  | AtSuper => (Done (Ret (InterProcessLock_init lock_path)), s)
  | Done r => (Done r, s)
  end.

(** The processes and the file system they share. *)
Record system : Type := System {
  procs : list (cred * pc);
  files : fs
}.

(** Process number [k] takes a step; a number out of range is no step. *)
Definition step (k : nat) (st : system) : system :=
  match procs st !! k with
  | None => st
  | Some (c, p) =>
      let '(p', s') := step1 c p (files st) in
      {| procs := <[k := (c, p')]> (procs st); files := s' |}
  end.

(** A schedule names the process to step, one step after the other. *)
Fixpoint run (sched : list nat) (st : system) : system :=
  match sched with
  | [] => st
  | k :: sched' => run sched' (step k st)
  end.

Definition start (cs : list cred) (s : fs) : system :=
  {| procs := (fun c => (c, AtExists)) <$> cs; files := s |}.

Definition all_done (st : system) : Prop :=
  forall k c p, procs st !! k = Some (c, p) -> is_done p = true.

(** The process is past its [open]: the test found the file, or its own
    [open] returned or raised. *)
Definition past_open (p : pc) : Prop :=
  match p with
  | AtExists | AtOpen => False
  | _ => True
  end.

(** What holds in every state of the race:
    - a process past its [open] has seen the file, which is never removed;
    - the file has the bits [0o777], or its owner has its [chmod] to do. *)
Definition race_inv (st : system) : Prop :=
  (forall k c p, procs st !! k = Some (c, p) -> past_open p ->
     is_Some (files st !! lock_path)) /\
  (forall f, files st !! lock_path = Some f ->
     mode f = o777 \/
     exists k c, procs st !! k = Some (c, AtChmod) /\ uid c = owner f).

(** The number of steps a process has left at most. *)
Definition steps_left (p : pc) : nat :=
  match p with
  | AtExists => 4
  | AtOpen => 3
  | AtChmod => 2
  | AtSuper => 1
  | Done _ => 0
  end.

End init.

End AsmProcessLock.

(** *** Two users racing on an empty temporary directory *)

Module LockScenario.

Import AsmProcessLock.

Local Open Scope Z_scope.

(** Two users, each with the mask [0o022]. *)
Definition alice : cred := {| uid := 1000; gid := 1000; umask := 18 |}.
Definition bob : cred := {| uid := 1001; gid := 1001; umask := 18 |}.

Definition tmp : string := "/tmp".

(** The two processes take their steps in turn. *)
Definition in_turn : list nat := [0; 1; 0; 1; 0; 1; 0; 1]%nat.

End LockScenario.

(** ** The guarded region of [main] *)

Module Main.

(** [args.action], one of the sub-commands of the parser. *)
Inductive action : Type :=
  | Install | Remove | List_ | Update | Default | Search | Info.

(** What a command function returns, as far as [main] looks at it:
    [False], a [str], or any other object. *)
Inductive pyval : Type :=
  | PyFalse
  | PyStr (s : string)
  | PyObject.

(** What is observed of a run. *)
Inductive event : Type :=
  | Acquire
  | Release
  | Invoke (a : action)
  | Print (s : string).

Definition is_print (e : event) : Prop :=
  match e with Print _ => True | _ => False end.

Fixpoint sum_ord (s : string) : Z :=
  match s with
  | EmptyString => 0
  | String c rest => Z.of_nat (nat_of_ascii c) + sum_ord rest
  end.

(** [get_error_code(error_cls)], on [error_cls.__name__]. *)
Definition get_error_code (name : string) : Z := 1 + sum_ord name mod 255.

Section main.

(** [St] is the state the command functions act on (the skill directories,
    the working copies). *)
Context {St : Type}.

Record state : Type := State {
  skills : St;
  held : bool;
  trace : list event
}.

Definition emit (e : event) (s : state) : state :=
  {| skills := skills s; held := held s; trace := trace s ++ [e] |}.

(** [main_functions[args.action]()] *)
Variable main_functions : action -> St -> outcome pyval * St.

(** How the blocking [acquire] of [asm.lock.__enter__()] ends: with the lock,
    or with the error of the operating system. *)
Variable acquire : outcome unit.

(** [InterProcessLock.__enter__]: nothing is held when [acquire] fails. *)
Definition lock_enter (s : state) : outcome unit * state :=
  match acquire with
  | Ret _ =>
      (Ret tt, emit Acquire
         {| skills := skills s; held := true; trace := trace s |})
  | Raise e => (Raise e, s)
  end.

(** [InterProcessLock.__exit__]: [release()]; it returns [None], so that an
    exception of the body goes on. *)
Definition lock_exit (s : state) : state :=
  emit Release {| skills := skills s; held := false; trace := trace s |}.

(** [with mgr: body] *)
Definition with_ {A : Type} (enter : state -> outcome unit * state)
    (exit : state -> state) (body : state -> outcome A * state) (s : state)
    : outcome A * state :=
  match enter s with
  | (Raise e, s1) => (Raise e, s1)
  | (Ret _, s1) => let '(r, s2) := body s1 in (r, exit s2)
  end.

Definition call (a : action) (s : state) : outcome pyval * state :=
  let '(r, k) := main_functions a (skills s) in
  (r, emit (Invoke a) {| skills := k; held := held s; trace := trace s |}).

Definition printer (x : string) (s : state) : state := emit (Print x) s.

(** The [try] statement inside the [with]; the result is the exit status
    [main] returns. *)
Definition body (a : action) (s : state) : outcome Z * state :=
  match call a s with
  | (Ret PyFalse, s1) => (Ret 1%Z, s1)
  | (Ret (PyStr x), s1) => (Ret 0%Z, printer x s1)
  | (Ret PyObject, s1) => (Ret 0%Z, s1)
  | (Raise (AsmException cls msg), s1) =>
      (Ret (get_error_code cls), printer (cls +:+ ": " +:+ msg) s1)
  | (Raise e, s1) => (Raise e, s1)
  end.

(** What [body] returns, read off the outcome of the command function: the
    exit paths of the [try] statement. *)
Definition exit_of (r : outcome pyval) : outcome Z :=
  match r with
  | Ret PyFalse => Ret 1%Z
  | Ret _ => Ret 0%Z
  | Raise (AsmException cls _) => Ret (get_error_code cls)
  | Raise e => Raise e
  end.

(** [main], from [with asm.lock:] on, for the parsed [args.action]. *)
Definition main (a : action) (s : state) : outcome Z * state :=
  with_ lock_enter lock_exit (body a) s.

End main.

Arguments state : clear implicits.

End Main.

(** ** More on the TTL cache: clocks, further descriptors *)

Module CacheClock.

Import CachedProperty.

Section clock.

Context {V S : Type}.

(** No entry of any dictionary was stamped after [t]. *)
Definition stamps_le (t : Q) (w : world V S) : Prop :=
  forall a m name v last_update,
    store w !! a = Some m -> m !! name = Some (v, last_update) ->
    last_update <= t.

(** The clock readings of the reads never go back, from [t] on: what
    [time.monotonic()] promises. *)
Fixpoint clock_ok (t : Q) (os : list (access_op V S)) : Prop :=
  match os with
  | [] => True
  | Read _ _ now :: os' => t <= now /\ clock_ok now os'
  | Invalidate _ _ :: os' => clock_ok t os'
  end.

(** The reading of the last read, [t] when there is none. *)
Fixpoint last_time (t : Q) (os : list (access_op V S)) : Q :=
  match os with
  | [] => t
  | Read _ _ now :: os' => last_time now os'
  | Invalidate _ _ :: os' => last_time t os'
  end.

End clock.

End CacheClock.

(** *** Further descriptors for the scenario *)

Module Scenario2.

Import CachedProperty Scenario.

(** The class of the owner as the constructor of the descriptor is called
    without a time-to-live. *)
Definition counter_default : cached_property nat nat :=
  decorate None "count" (fget counter).

(** A second cached property of the same instances. *)
Definition other : cached_property nat nat :=
  {| ttl := 10;
     fget := fun _ n => (Ret (n + 100)%nat, Datatypes.S n);
     __name__ := "other" |}.


End Scenario2.

(** ** More on the race for the lock file *)

Module LockRace.

Import AsmProcessLock.

Local Open Scope Z_scope.

(** The owner may read and write a file of mode [m]. *)
Definition owner_rw (m : Z) : Prop :=
  Z.land (Z.land (Z.shiftr m 6) 7) 6 = 6.

(** The processes all run for user [u], under masks that leave the owner
    the bits [0o600]. *)
Definition one_user (u : nat) (cs : list cred) : Prop :=
  Forall (fun c => uid c = u /\ Z.land (umask c) 384 = 0) cs.

Section race.

Variable tmpdir : string.

(** A process that is going to return the lock, or has: the owner of the
    file before its [chmod], or a process past the system calls. *)
Definition winner_state (o : nat) (c : cred) (p : pc) : Prop :=
  match p with
  | AtChmod => uid c = o
  | AtSuper => True
  | Done (Ret r) => r = InterProcessLock_init (lock_path tmpdir)
  | _ => False
  end.

(** Once the file is there, some process is going to return the lock. *)
Definition has_winner (st : system) : Prop :=
  forall f, files st !! lock_path tmpdir = Some f ->
    exists k c p, procs st !! k = Some (c, p) /\ winner_state (owner f) c p.

(** What a process has left the constructor with. *)
Definition exits_ok (st : system) : Prop :=
  forall k c r, procs st !! k = Some (c, Done r) ->
    r = Ret (InterProcessLock_init (lock_path tmpdir)) \/
    r = Raise PermissionError.

(** The race among processes of the one user [u]: no process has raised,
    and the file, once there, is a file of [u] that [u] may read and write. *)
Definition one_user_inv (u : nat) (st : system) : Prop :=
  (forall k c p, procs st !! k = Some (c, p) ->
     (uid c = u /\ Z.land (umask c) 384 = 0) /\
     forall e, p ≠ Done (Raise e)) /\
  (forall f, files st !! lock_path tmpdir = Some f ->
     owner f = u /\ owner_rw (mode f)).

(** The constructor has nothing to do: the process is before the test, or
    past a test that found the file. *)
Definition idle (p : pc) : Prop :=
  match p with
  | AtExists | AtSuper => True
  | Done (Ret r) => r = InterProcessLock_init (lock_path tmpdir)
  | _ => False
  end.

End race.

End LockRace.

(** *** More users for the scenario *)

Module LockScenario2.

Import AsmProcessLock LockScenario.

Local Open Scope Z_scope.

(** A second process of [alice], under the mask [0o077]. *)
Definition alice_strict : cred := {| uid := 1000; gid := 1000; umask := 63 |}.

(** A temporary directory in which user 0 has left a lock file of mode
    [0o600]. *)
Definition root_only : gmap string file :=
  {[ "/tmp/asm_lock" := {| owner := 0; group := 0; mode := 384; content := "" |} ]}.

End LockScenario2.

(** ** The command functions of [main] and [skill_info] *)

Module Commands.

(** A skill, as far as [__main__] reads it; [author], [url] and [path] are
    held as what [str] makes of them. *)
Record skill : Type := Skill {
  name : string;
  author : string;
  url : string;
  path : string;
  is_local : bool
}.

Definition newline : ascii := "010"%char.
Definition tab : ascii := "009"%char.

(** [sep.join(parts)] *)
Fixpoint join (sep : string) (parts : list string) : string :=
  match parts with
  | [] => ""
  | [x] => x
  | x :: rest => x +:+ sep +:+ join sep rest
  end.

Definition nl : string := String newline "".

(** ['\t[installed]'] *)
Definition installed_mark : string := String tab "[installed]".

(** The generator of the ['list'] command: the skills of [asm.list()] that
    pass [not args.installed or skill.is_local], each as its name, marked
    when it is local and the output is not raw. *)
Definition list_lines (raw installed : bool) (skills : list skill)
    : list string :=
  List.map
    (fun s => name s +:+ (if is_local s && negb raw then installed_mark else ""))
    (List.filter (fun s => negb installed || is_local s) skills).

(** The ['list'] command. *)
Definition list_command (raw installed : bool) (skills : list skill) : string :=
  join nl (list_lines raw installed skills).

(** The generator of the ['search'] command; [score s] is what
    [skill.match(args.skill, args.author)] returns for [s]. *)
Definition search_lines (score : skill -> Q) (skills : list skill)
    : list string :=
  List.map name (List.filter (fun s => Qle_bool (3 # 10) (score s)) skills).

(** The ['search'] command. *)
Definition search_command (score : skill -> Q) (skills : list skill) : string :=
  join nl (search_lines score skills).

(** The lines [skill_info(skill)] joins. *)
Definition skill_info_lines (s : skill) : list string :=
  [ "Name: " +:+ name s;
    "Author: " +:+ author s;
    "Url: " +:+ url s;
    "Path: " +:+ (if is_local s then path s else "Not installed") ].

(** What [skill_info(skill)] prints. *)
Definition skill_info (s : skill) : string := join nl (skill_info_lines s).

(** [text.split('\n')] *)
Fixpoint split_nl (text : string) : list string :=
  match text with
  | EmptyString => [""]
  | String c rest =>
      if Ascii.eqb c newline then "" :: split_nl rest
      else
        match split_nl rest with
        | [] => [String c ""]
        | first :: others => String c first :: others
        end
  end.

(** The text holds no line break. *)
Fixpoint one_line (text : string) : bool :=
  match text with
  | EmptyString => true
  | String c rest => negb (Ascii.eqb c newline) && one_line rest
  end.

(** An exception that the [except AsmException] clause takes. *)
Definition is_asm (e : exn) : Prop :=
  match e with AsmException _ _ => True | _ => False end.

(** The lines handed to [printer], in order. *)
Definition printed (tr : list Main.event) : list string :=
  omap (fun e => match e with Main.Print x => Some x | _ => None end) tr.

End Commands.

(** *** Two skills for the scenario *)

Module CommandsScenario.

Import Commands.

Definition weather : skill :=
  {| name := "weather"; author := "alice"; url := "https://example.org/weather";
     path := "/opt/skills/weather"; is_local := true |}.

Definition timer : skill :=
  {| name := "timer"; author := "None"; url := "https://example.org/timer";
     path := "None"; is_local := false |}.

End CommandsScenario.

(** ** [Git]: no password prompt *)

Module GitEnv.

(** An environment, or any [dict] of strings. *)
Abbreviation dict := (gmap string string).

(** The class attribute [Git.env]. *)
Definition env : dict := {[ "GIT_ASKPASS" := "echo" ]}.

(** [d.update(other)]: the keys of [other] are set in [d]. *)
Definition update (d other : dict) : dict := other ∪ d.

(** The keyword arguments of a call: [env], when it is given, and the
    others. *)
Record kwargs (K : Type) : Type := Kwargs {
  kw_env : option dict;
  kw_rest : K
}.
Arguments Kwargs {K} kw_env kw_rest.
Arguments kw_env {K} k.
Arguments kw_rest {K} k.

Section wrapper.

Context {A K R : Type}.

(** [super(Git, self).__getattr__(item)]: the command of [git.cmd.Git] for
    [item], called with the arguments, [env=] and the other keywords. *)
Variable git_command : string -> A -> dict -> K -> R.

(** [self.env]: the class attribute, unless the instance has its own. *)
Variable self_env : dict.

(** The [wrapper] that [Git.__getattr__(self, item)] returns. *)
Definition wrapper (item : string) (args : A) (kw : kwargs K) : R :=
  let env := default ∅ (kw_env kw) in
  let env := update env self_env in
  git_command item args env (kw_rest kw).

End wrapper.

End GitEnv.

(** ** Binary64 arithmetic

    [time.monotonic()] returns a [float], and [now - last_update] is the
    subtraction of two: the exact difference, rounded to the nearest binary64
    value, ties to the even significand. A finite binary64 value is a
    rational, and is held as one. *)

Module Binary64.

(** [2 ** k], for any integer [k]. *)
Definition pow2 (k : Z) : Q := 2 ^ k.

(** The exponent of the largest power of two that is at most [x], for
    [x > 0]. *)
Definition ilog2 (x : Q) : Z :=
  let k := (Z.log2 (Qnum x) - Z.log2 (Zpos (Qden x)))%Z in
  if Qle_bool (pow2 k) x then k else (k - 1)%Z.

(** The nearest integer, a tie going to the even one. *)
Definition rne (m : Q) : Z :=
  let f := Qfloor m in
  match Qcompare (m - inject_Z f)%Q (1 # 2)%Q with
  | Lt => f
  | Gt => (f + 1)%Z
  | Eq => if Z.even f then f else (f + 1)%Z
  end.

(** The exponent of the least subnormal number, [2 ** -1074]. *)
Definition emin : Z := -1074.

(** The exponent of the unit in the last place of the 53-bit significand at
    [x > 0]. *)
Definition ulp_exp (x : Q) : Z := Z.max emin (ilog2 x - 52).

(** [x > 0] rounded to 53 bits, the exponent not bounded above. *)
Definition round_pos (x : Q) : Q :=
  inject_Z (rne (x * pow2 (- ulp_exp x))) * pow2 (ulp_exp x).

Definition round_fin (x : Q) : Q :=
  match x ?= 0 with
  | Eq => 0
  | Gt => round_pos x
  | Lt => - round_pos (- x)
  end.

(** The result of an operation on finite values: finite, or an infinity when
    the rounded value is out of range. *)
Inductive xfloat : Type :=
  | Fin (q : Q)
  | PInf
  | NInf.

(** The binary64 value nearest to [x]. *)
Definition round64 (x : Q) : xfloat :=
  let y := round_fin x in
  if Qle_bool (pow2 1024) y then PInf
  else if Qle_bool y (- pow2 1024) then NInf
  else Fin y.

(** [a - b] on floats. *)
Definition fsub (a b : Q) : xfloat := round64 (a - b).

(** [x] is finite, of value [q]. *)
Definition xeq (x : xfloat) (q : Q) : Prop :=
  match x with
  | Fin y => y == q
  | _ => False
  end.

(** [x] is a finite binary64 value: rounding leaves it as it is. *)
Definition is_float (x : Q) : Prop := xeq (round64 x) x.

(** [x > t], for [t] a float or an [int]: Python compares the two exactly. *)
Definition xgtb (x : xfloat) (t : Q) : bool :=
  match x with
  | Fin y => Qgtb y t
  | PInf => true
  | NInf => false
  end.

End Binary64.

(** ** The TTL cache with the expiry test as the code evaluates it

    [CachedProperty] reads [now - last_update > self.ttl] as a comparison of
    the elapsed time, in exact arithmetic. The code evaluates the subtraction
    in binary64; [CachedProperty64] does so too. All else is shared. *)

Module CachedProperty64.

Import CachedProperty Binary64.

Section cache64.

Context {V S : Type}.

(** The body of the [try], with [now - last_update] a float subtraction. *)
Definition try_cached (d : cached_property V S) (i : inst) (now : Q)
    (w : world V S) : outcome V :=
  match getattr_cache w i with
  | Raise e => Raise e
  | Ret a =>
      match deref w a !! __name__ d with
      | None => Raise KeyError
      | Some (value, last_update) =>
          if Qgtb (ttl d) 0 && xgtb (fsub now last_update) (ttl d)
          then Raise AttributeError
          else Ret value
      end
  end.

(** [cached_property.__get__(self, inst, owner)] *)
Definition __get__ (d : cached_property V S) (i : inst) (now : Q)
    (w : world V S) : outcome V * world V S :=
  match try_cached d i now w with
  | Ret value => (Ret value, w)
  | Raise e => if caught e then recompute d i now w else (Raise e, w)
  end.

End cache64.

End CachedProperty64.

(** *** A property cached for five minutes, read at 0.1 s and at 300.1 s *)

Module Scenario64.

Import CachedProperty Scenario.

(** The floats [0.1], [300.1] and [1.5]. *)
Definition f0_1 : Q := 3602879701896397 # 36028797018963968.
Definition f300_1 : Q := 2639707515964621 # 8796093022208.
Definition f1_5 : Q := 3 # 2.

Definition five_minutes : cached_property nat nat := with_ttl 300 counter.

(** After the first read of instance 1, at 0.1 s. *)
Definition v1 : world nat nat := (CachedProperty64.__get__ five_minutes 1 f0_1 w0).2.

End Scenario64.

(** * Properties *)

(** ** Comparisons on rationals *)

Lemma Qgtb_true x y : Qgtb x y = true <-> y < x.
Proof.
  unfold Qgtb. rewrite negb_true_iff, <- not_true_iff_false, Qle_bool_iff.
  split; [apply Qnot_le_lt | apply Qlt_not_le].
Qed.

Lemma Qgtb_false x y : Qgtb x y = false <-> x <= y.
Proof.
  unfold Qgtb. rewrite negb_false_iff, Qle_bool_iff. tauto.
Qed.

(** ** The TTL cache *)

Section cache_facts.

Import CachedProperty.

Context {V S : Type}.
Implicit Types (d : cached_property V S) (w : world V S) (i j : positive).
Implicit Types (now : Q) (v : V) (name : string).

(** The expiry test of [__get__], as a proposition. *)
Lemma expired_spec d now last_update :
  Qgtb (ttl d) 0 && Qgtb (now - last_update) (ttl d) = true
  <-> 0 < ttl d /\ ttl d < now - last_update.
Proof. by rewrite andb_true_iff, !Qgtb_true. Qed.

(** What the [try] body does, read off the entry. *)
Lemma try_cached_entry d i now w :
  try_cached d i now w =
    match attrs w !! i with
    | None => Raise AttributeError
    | Some _ =>
        match entry_of w i (__name__ d) with
        | None => Raise KeyError
        | Some (value, last_update) =>
            if Qgtb (ttl d) 0 && Qgtb (now - last_update) (ttl d)
            then Raise AttributeError else Ret value
        end
    end.
Proof.
  unfold try_cached, entry_of, cache_dict, getattr_cache.
  by destruct (attrs w !! i).
Qed.

Lemma entry_of_no_attr w i name : attrs w !! i = None -> entry_of w i name = None.
Proof. unfold entry_of, cache_dict. by intros ->. Qed.

(** A miss leaves the [try] by one of the two exceptions the handler takes. *)
Lemma try_cached_miss d i now w :
  is_miss d i now w ->
  exists e, try_cached d i now w = Raise e /\ caught e = true.
Proof.
  unfold is_miss. rewrite try_cached_entry.
  destruct (attrs w !! i) as [a|] eqn:Ha.
  - destruct (entry_of w i (__name__ d)) as [[v lu]|]; [|by eexists].
    intros Hexp%expired_spec. rewrite Hexp. by eexists.
  - by eexists.
Qed.

Lemma get_miss d i now w :
  is_miss d i now w -> __get__ d i now w = recompute d i now w.
Proof.
  intros (e & He & Hc)%try_cached_miss. unfold __get__. by rewrite He, Hc.
Qed.

(** An entry that is not expired is returned as it is, and nothing else
    happens. *)
Lemma get_hit d i now w v last_update :
  entry_of w i (__name__ d) = Some (v, last_update) ->
  (ttl d <= 0 \/ now - last_update <= ttl d) ->
  __get__ d i now w = (Ret v, w).
Proof.
  intros He Hfresh. unfold __get__. rewrite try_cached_entry, He.
  destruct (attrs w !! i) eqn:Ha.
  2: { by rewrite entry_of_no_attr in He. }
  destruct (Qgtb (ttl d) 0 && Qgtb (now - last_update) (ttl d)) eqn:Hx; [|done].
  apply expired_spec in Hx. lra.
Qed.


(** The entry written by [cache[self.__name__] = (value, now)]. *)
Lemma entry_of_setitem i name (item : V * Q) w :
  entry_of (setitem (cache_of_inst i w).1 name item (cache_of_inst i w).2) i name
  = Some item.
Proof.
  unfold cache_of_inst, getattr_cache.
  destruct (attrs w !! i) as [a|] eqn:Ha; simpl.
  - unfold entry_of, cache_dict, setitem, deref; simpl.
    by rewrite Ha, !lookup_insert_eq; simpl; rewrite lookup_insert_eq.
  - unfold entry_of, cache_dict, setitem, deref; simpl.
    by rewrite !lookup_insert_eq; simpl; rewrite lookup_insert_eq.
Qed.

Lemma calls_setitem i name (item : V * Q) w :
  calls (setitem (cache_of_inst i w).1 name item (cache_of_inst i w).2) = calls w
  /\ env (setitem (cache_of_inst i w).1 name item (cache_of_inst i w).2) = env w.
Proof.
  unfold cache_of_inst, getattr_cache. by destruct (attrs w !! i).
Qed.

(** The handler when the wrapped computation returns. *)
Lemma recompute_ret d i now w v e :
  fget d i (env w) = (Ret v, e) ->
  (recompute d i now w).1 = Ret v /\
  entry_of (recompute d i now w).2 i (__name__ d) = Some (v, now) /\
  calls (recompute d i now w).2 = calls w ++ [(__name__ d, i)] /\
  env (recompute d i now w).2 = e.
Proof.
  intros Hf. unfold recompute. rewrite Hf.
  set (w1 := log_call _ _).
  pose proof (entry_of_setitem i (__name__ d) (v, now) w1) as He.
  pose proof (calls_setitem i (__name__ d) (v, now) w1) as [Hc Hv].
  destruct (cache_of_inst i w1) as [cache w2]; simpl in *. done.
Qed.

(** The handler when the wrapped computation raises: the exception leaves
    [__get__], and neither an attribute nor a dictionary has changed. *)
Lemma recompute_raise d i now w x e :
  fget d i (env w) = (Raise x, e) ->
  recompute d i now w =
    (Raise x, log_call (__name__ d, i) (set_env e w)).
Proof. intros Hf. unfold recompute. by rewrite Hf. Qed.

(** The handler always invokes the wrapped computation, once, and returns
    what it returns or raises. *)
Lemma recompute_calls d i now w :
  (recompute d i now w).1 = (fget d i (env w)).1 /\
  calls (recompute d i now w).2 = calls w ++ [(__name__ d, i)].
Proof.
  destruct (fget d i (env w)) as [[v|x] e] eqn:Hf.
  - by destruct (recompute_ret d i now w v e Hf) as (-> & _ & -> & _).
  - by rewrite (recompute_raise d i now w x e Hf).
Qed.

(** With a time-to-live that is not positive an entry is never expired. *)
Lemma reads_never_expire d i w v last_update nows :
  ttl d <= 0 ->
  entry_of w i (__name__ d) = Some (v, last_update) ->
  reads d i nows w = (replicate (length nows) (Ret v), w).
Proof.
  intros Httl He. induction nows as [|now nows IH]; [done|].
  simpl. rewrite (get_hit d i now w v last_update He) by auto.
  by rewrite IH.
Qed.

(** *** C1 *)


(** *** C3 *)

(** With a time-to-live that is not positive: a first access whose
    computation returns [v], then any accesses at any clock readings. *)
Lemma reads_compute_once d i w v e now0 nows :
  ttl d <= 0 ->
  entry_of w i (__name__ d) = None ->
  fget d i (env w) = (Ret v, e) ->
  let '(rs, w') := reads d i (now0 :: nows) w in
  rs = replicate (Datatypes.S (length nows)) (Ret v) /\
  calls w' = calls w ++ [(__name__ d, i)].
Proof.
  intros Httl He Hf.
  assert (is_miss d i now0 w) as Hmiss by (unfold is_miss; by rewrite He).
  simpl. rewrite (get_miss d i now0 w Hmiss).
  destruct (recompute_ret d i now0 w v e Hf) as (Hr & Hent & Hc & _).
  destruct (recompute d i now0 w) as [r1 w1]; simpl in *.
  rewrite (reads_never_expire d i w1 v now0 nows) by done.
  by subst r1.
Qed.

(** C3. With [ttl == 0], a first access whose computation returns [v],
    followed by any number of accesses at any clock readings: each access
    returns [v], and the wrapped computation has been invoked once, by the
    first. *)
Theorem zero_ttl_computes_once d i w v e now0 nows :
  ttl d == 0 ->
  entry_of w i (__name__ d) = None ->
  fget d i (env w) = (Ret v, e) ->
  let '(rs, w') := reads d i (now0 :: nows) w in
  rs = replicate (Datatypes.S (length nows)) (Ret v) /\
  calls w' = calls w ++ [(__name__ d, i)].
Proof.
  intros Httl. apply reads_compute_once. lra.
Qed.

(** *** C4 *)


(** *** C8 *)

(** C8. After [del inst._cache[name]] the next read invokes the wrapped
    computation, at any clock reading, whatever the age of the entry that
    was deleted. *)
Theorem invalidation_forces_recompute d i now w w' :
  del_cache (__name__ d) i w = (Ret tt, w') ->
  let '(r, w'') := __get__ d i now w' in
  r = (fget d i (env w')).1 /\
  calls w'' = calls w' ++ [(__name__ d, i)].
Proof.
  unfold del_cache, getattr_cache. intros Hdel.
  destruct (attrs w !! i) as [a|] eqn:Ha; [|done].
  destruct (deref w a !! __name__ d) eqn:Hk; [|done].
  injection Hdel as <-.
  assert (is_miss d i now (set_store a (delete (__name__ d) (deref w a)) w))
    as Hmiss.
  { unfold is_miss, entry_of, cache_dict, deref; simpl.
    by rewrite Ha, lookup_insert_eq; simpl; rewrite lookup_delete_eq. }
  rewrite (get_miss _ _ _ _ Hmiss).
  pose proof (recompute_calls d i now
    (set_store a (delete (__name__ d) (deref w a)) w)) as [Hr Hc].
  by destruct (recompute _ _ _ _).
Qed.

(** *** C9 *)

Lemma heap_ok_init (e : S) : heap_ok (init_world (V := V) e).
Proof. split; intros *; simpl; by rewrite lookup_empty. Qed.

(** Writing into the dictionary of [i] keeps the heap in order and leaves
    the dictionary of any other instance as it is. *)
Lemma setitem_frame i name (item : V * Q) w :
  heap_ok w ->
  let w' := setitem (cache_of_inst i w).1 name item (cache_of_inst i w).2 in
  heap_ok w' /\ forall j, i ≠ j -> cache_dict w' j = cache_dict w j.
Proof.
  intros [Hwf Hsep]. unfold cache_of_inst, getattr_cache.
  destruct (attrs w !! i) as [a|] eqn:Ha; simpl.
  - split; [split|]; simpl.
    + intros k b Hk. destruct (decide (a = b)) as [->|Hne].
      * rewrite lookup_insert_eq. eauto.
      * rewrite lookup_insert_ne by done. eauto.
    + done.
    + intros j Hij. unfold cache_dict, deref; simpl.
      destruct (attrs w !! j) as [b|] eqn:Hb; [|done].
      rewrite lookup_insert_ne; [done|].
      intros ->. apply Hij. eauto.
  - pose proof (is_fresh (dom (store w))) as Hfresh.
    set (a := fresh (dom (store w))) in *.
    assert (forall k, attrs w !! k ≠ Some a) as Hnew.
    { intros k Hk. apply Hfresh, elem_of_dom. eauto. }
    split; [split|]; simpl.
    + intros k b. destruct (decide (i = k)) as [<-|Hne].
      * rewrite lookup_insert_eq. intros [= <-]. rewrite lookup_insert_eq. eauto.
      * rewrite lookup_insert_ne by done. intros Hk.
        destruct (decide (a = b)) as [<-|Hab]; [by destruct (Hnew k)|].
        rewrite !lookup_insert_ne by done. eauto.
    + intros k l b. destruct (decide (i = k)) as [<-|Hik];
        destruct (decide (i = l)) as [<-|Hil]; try done.
      * rewrite lookup_insert_eq, lookup_insert_ne by done.
        intros [= <-] Hl. by destruct (Hnew l).
      * rewrite lookup_insert_ne, lookup_insert_eq by done.
        intros Hk [= <-]. by destruct (Hnew k).
      * rewrite !lookup_insert_ne by done. eauto.
    + intros j Hij. unfold cache_dict, deref; simpl.
      rewrite lookup_insert_ne by done.
      destruct (attrs w !! j) as [b|] eqn:Hb; [|done].
      assert (a ≠ b) by (intros ->; by destruct (Hnew j)).
      by rewrite !lookup_insert_ne.
Qed.

(** A read of instance [i], on a heap in order. *)
Lemma get_frame d i now w :
  heap_ok w ->
  heap_ok (__get__ d i now w).2 /\
  forall j, i ≠ j -> cache_dict (__get__ d i now w).2 j = cache_dict w j.
Proof.
  intros Hok. unfold __get__.
  destruct (try_cached d i now w) as [v|x]; [done|].
  destruct (caught x); [|done].
  unfold recompute. destruct (fget d i (env w)) as [[v|y] e]; [|done].
  set (w1 := log_call _ _).
  assert (heap_ok w1) as Hok1 by done.
  pose proof (setitem_frame i (__name__ d) (v, now) w1 Hok1) as Hfr.
  destruct (cache_of_inst i w1) as [cache w2]; simpl in *. done.
Qed.

Lemma del_cache_ok name i w : heap_ok w -> heap_ok (del_cache name i w).2.
Proof.
  intros [Hwf Hsep]. unfold del_cache, getattr_cache.
  destruct (attrs w !! i) as [a|] eqn:Ha; [|done].
  destruct (deref w a !! name); [|done].
  split; simpl; [|done].
  intros k b Hk. destruct (decide (a = b)) as [->|Hne].
  - rewrite lookup_insert_eq. eauto.
  - rewrite lookup_insert_ne by done. eauto.
Qed.

(** Whatever reads and invalidations are run from the initial state, the
    heap is in order: each instance has a dictionary of its own. *)
Lemma heap_ok_run_ops (os : list (access_op V S)) (e : S) :
  heap_ok (run_ops os (init_world e)).
Proof.
  unfold run_ops. generalize (heap_ok_init e).
  generalize (init_world (V := V) e). induction os as [|o os IH]; [done|].
  intros w Hok. simpl. apply IH. destruct o as [d i now|name i]; simpl.
  - by apply get_frame.
  - by apply del_cache_ok.
Qed.

(** C9. In any state reached by reads and invalidations, a read of a
    property of instance [i], recomputing or not, leaves what any other
    instance [j] has cached, values and timestamps, as it is. *)
Theorem read_leaves_other_instances (os : list (access_op V S)) (e : S)
    d i j now :
  i ≠ j ->
  let w := run_ops os (init_world e) in
  cache_dict (__get__ d i now w).2 j = cache_dict w j.
Proof.
  intros Hij w. by apply get_frame; [apply heap_ok_run_ops|].
Qed.

(** *** C10 *)

(** The expiry test is the only place where the time-to-live is read, and
    it tells a negative one from zero nowhere. *)
Lemma get_negative_ttl d i now w :
  ttl d < 0 -> __get__ d i now w = __get__ (with_ttl 0 d) i now w.
Proof.
  intros Hneg. unfold __get__, try_cached, recompute; simpl.
  assert (Qgtb (ttl d) 0 = false) as -> by (apply Qgtb_false; lra).
  done.
Qed.

(** C10. A descriptor with a negative time-to-live behaves on every
    sequence of reads as the same descriptor with [ttl = 0]: an entry it has
    stored is returned by every later read, at any clock reading, and from a
    first access whose computation returns [v] on, the wrapped computation
    is invoked that once. *)
Theorem negative_ttl_as_zero d i w :
  ttl d < 0 ->
  (forall nows, reads d i nows w = reads (with_ttl 0 d) i nows w) /\
  (forall v last_update nows,
     entry_of w i (__name__ d) = Some (v, last_update) ->
     reads d i nows w = (replicate (length nows) (Ret v), w)) /\
  (forall v e now0 nows,
     entry_of w i (__name__ d) = None ->
     fget d i (env w) = (Ret v, e) ->
     let '(rs, w') := reads d i (now0 :: nows) w in
     rs = replicate (Datatypes.S (length nows)) (Ret v) /\
     calls w' = calls w ++ [(__name__ d, i)]).
Proof.
  intros Hneg. split; [|split].
  - intros nows. revert w. induction nows as [|now nows IH]; [done|].
    intros w. simpl. rewrite (get_negative_ttl d i now w Hneg).
    destruct (__get__ (with_ttl 0 d) i now w) as [r w1]. by rewrite IH.
  - intros v lu nows He. apply (reads_never_expire d i w v lu); [lra|done].
  - intros v e now0 nows. apply reads_compute_once. lra.
Qed.

End cache_facts.

(** ** The scenario of the specification, and the theorems at work *)

Section scenario_facts.

Import CachedProperty Scenario.

(** Closes a goal on concrete data by evaluation. *)
Ltac concrete :=
  vm_compute;
  repeat match goal with |- _ /\ _ => split end;
  first [reflexivity | discriminate | exact I | intros; discriminate].

(** The four reads of the scenario: 0 at 0 s, 0 again at 0.5 s, 1 at 1.2 s,
    and 2 once the entry has been deleted. *)
Example scenario_reads :
  let r1 := __get__ counter 1 0 w0 in
  let r2 := __get__ counter 1 (1 # 2) r1.2 in
  let r3 := __get__ counter 1 (6 # 5) r2.2 in
  let r4 := __get__ counter 1 (6 # 5) (del_cache "count" 1 r3.2).2 in
  (r1.1, r2.1, r3.1, r4.1) = (Ret 0, Ret 0, Ret 1, Ret 2)%nat /\
  length (calls r4.2) = 3%nat.
Proof. concrete. Qed.



Lemma zero_ttl_computes_once_witness :
  ttl counter_forever == 0 /\
  entry_of w0 1 (__name__ counter_forever) = None /\
  fget counter_forever 1 (env w0) = (Ret 0%nat, 1%nat) /\
  let '(rs, w') := reads counter_forever 1 [0; 1000; 5] w0 in
  rs = replicate 3 (Ret 0%nat) /\
  calls w' = calls w0 ++ [(__name__ counter_forever, 1%positive)].
Proof.
  split; [concrete|]. split; [concrete|]. split; [concrete|].
  apply (zero_ttl_computes_once counter_forever 1 w0 0%nat 1%nat 0 [1000; 5]);
    concrete.
Defined.


Lemma invalidation_forces_recompute_witness :
  del_cache (__name__ counter) 1 w1 = (Ret tt, (del_cache "count" 1 w1).2) /\
  let '(r, w'') := __get__ counter 1 (1 # 2) (del_cache "count" 1 w1).2 in
  r = (fget counter 1 (env (del_cache "count" 1 w1).2)).1 /\
  calls w'' = calls (del_cache "count" 1 w1).2 ++ [(__name__ counter, 1%positive)].
Proof.
  split; [concrete|].
  apply (invalidation_forces_recompute counter 1 (1 # 2) w1); concrete.
Defined.

Lemma read_leaves_other_instances_witness :
  1%positive ≠ 2%positive /\
  let w := run_ops [Read counter 1 0; Read counter 2 0] (init_world 0%nat) in
  cache_dict (__get__ counter 1 5 w).2 2 = cache_dict w 2.
Proof.
  split; [concrete|].
  apply (read_leaves_other_instances
           [Read counter 1 0; Read counter 2 0] 0%nat counter 1 2 5); concrete.
Defined.

Lemma negative_ttl_as_zero_witness :
  let w := (__get__ counter_negative 1 0 w0).2 in
  ttl counter_negative < 0 /\
  (forall nows, reads counter_negative 1 nows w
                = reads (with_ttl 0 counter_negative) 1 nows w) /\
  (forall v last_update nows,
     entry_of w 1 (__name__ counter_negative) = Some (v, last_update) ->
     reads counter_negative 1 nows w = (replicate (length nows) (Ret v), w)) /\
  (forall v e now0 nows,
     entry_of w 1 (__name__ counter_negative) = None ->
     fget counter_negative 1 (env w) = (Ret v, e) ->
     let '(rs, w') := reads counter_negative 1 (now0 :: nows) w in
     rs = replicate (Datatypes.S (length nows)) (Ret v) /\
     calls w' = calls w ++ [(__name__ counter_negative, 1%positive)]).
Proof.
  intros w. split; [concrete|].
  apply (negative_ttl_as_zero counter_negative 1 w); concrete.
Defined.

(** A negative time-to-live at work: one computation, however late the
    reads. *)
Example negative_ttl_reads :
  (reads counter_negative 1 [0; 1000; 5] w0).1 = replicate 3 (Ret 0%nat).
Proof. concrete. Qed.

(** Why [heap_ok] matters: when two instances have been handed one
    dictionary object, a read of the one is seen by the other. The
    descriptor never builds such a heap ([heap_ok_run_ops]). *)
Remark shared_dictionary_is_shared :
  ~ heap_ok shared /\
  entry_of shared 2 "count" = None /\
  entry_of (__get__ counter 1 0 shared).2 2 "count" = Some (0%nat, 0).
Proof.
  split; [|concrete].
  intros [_ Hsep]. by specialize (Hsep 1%positive 2%positive 1%positive eq_refl eq_refl).
Qed.

End scenario_facts.

(** ** The process lock *)

Section lock_facts.

Import AsmProcessLock.

Local Open Scope Z_scope.

Variable tmpdir : string.

Abbreviation lock_path := (lock_path tmpdir).
Abbreviation lock_obj := (InterProcessLock_init (lock_path)).
Abbreviation race_inv := (race_inv tmpdir).

(** The bits [0o777] let every user read and write. *)
Lemma mode_777_world_rw f : mode f = o777 -> world_rw f.
Proof.
  intros Hm c. unfold access. rewrite Hm.
  by repeat case_match.
Qed.

(** The constructor on a file system without the lock file. *)
Lemma init_creates c s :
  s !! lock_path = None ->
  exists f,
    __init__ tmpdir c s = (Ret lock_obj, <[lock_path := f]> s) /\
    owner f = uid c /\ mode f = o777.
Proof.
  intros Hnone. unfold __init__, exists_.
  rewrite bool_decide_eq_false_2 by (rewrite Hnone; by intros [? ?]).
  unfold open_w, chmod; simpl. rewrite Hnone, lookup_insert_eq; simpl.
  rewrite Nat.eqb_refl, orb_true_r.
  eexists. rewrite insert_insert_eq. by split.
Qed.

(** The constructor on a file system with the lock file: nothing is done
    to it. *)
Lemma init_existing c s f :
  s !! lock_path = Some f -> __init__ tmpdir c s = (Ret lock_obj, s).
Proof.
  intros Hf. unfold __init__, exists_.
  by rewrite bool_decide_eq_true_2 by (rewrite Hf; eauto).
Qed.

(** A process that runs alone goes through the constructor in four steps. *)
Lemma run_alone c s :
  run tmpdir [0; 0; 0; 0]%nat (start [c] s)
  = {| procs := [(c, Done (__init__ tmpdir c s).1)];
       files := (__init__ tmpdir c s).2 |}.
Proof.
  unfold __init__, start, step; simpl. unfold step; simpl.
  destruct (exists_ lock_path s); simpl; [done|].
  unfold step; simpl.
  destruct (open_w lock_path c s) as [[[]|e] s1]; simpl; [|done].
  unfold step; simpl.
  destruct (chmod lock_path o777 c s1) as [[[]|e] s2]; simpl; done.
Qed.

(** *** The race *)

Lemma race_inv_start cs s :
  s !! lock_path = None -> race_inv (start cs s).
Proof.
  intros Hnone. split; simpl.
  - intros k c p Hk. apply list_lookup_fmap_Some in Hk as (c' & [= -> ->] & _).
    done.
  - intros f. by rewrite Hnone.
Qed.

(** The processes after a step of process [k]. *)
Lemma step_procs k st c p :
  procs st !! k = Some (c, p) ->
  procs (step tmpdir k st) = <[k := (c, (step1 tmpdir c p (files st)).1)]> (procs st) /\
  files (step tmpdir k st) = (step1 tmpdir c p (files st)).2.
Proof.
  intros Hk. unfold step. rewrite Hk.
  by destruct (step1 tmpdir c p (files st)).
Qed.

(** One step of one process, on the lock file. *)
Lemma step1_file c p s :
  (past_open p -> is_Some (s !! lock_path)) ->
  let p' := (step1 tmpdir c p s).1 in
  let s' := (step1 tmpdir c p s).2 in
  (is_Some (s !! lock_path) -> is_Some (s' !! lock_path)) /\
  (past_open p' -> is_Some (s' !! lock_path)) /\
  (forall f', s' !! lock_path = Some f' ->
     (p' = AtChmod /\ uid c = owner f' /\ s !! lock_path = None) \/
     (p' ≠ AtChmod /\ mode f' = o777) \/
     (exists f, s !! lock_path = Some f /\ mode f' = mode f /\
        owner f' = owner f /\ (p = AtChmod -> uid c ≠ owner f))).
Proof.
  intros Hpast. destruct p as [| | | |r]; simpl.
  - (* the test *)
    unfold exists_. case_bool_decide as Hex; simpl.
    + split; [done|]. split; [done|]. intros f' Hf'. right; right.
      by exists f'.
    + split; [done|]. split; [done|]. intros f' Hf'. destruct Hex. eauto.
  - (* open *)
    unfold open_w. destruct (s !! lock_path) as [f|] eqn:Hf.
    + destruct (access c f 6); simpl.
      * rewrite lookup_insert_eq. split; [eauto|]. split; [eauto|].
        intros f' [= <-]. right; right. by exists f.
      * rewrite Hf. split; [eauto|]. split; [eauto|].
        intros f' [= <-]. right; right. by exists f.
    + simpl. rewrite lookup_insert_eq. split; [eauto|]. split; [eauto|].
      intros f' [= <-]. by left.
  - (* chmod *)
    unfold chmod. destruct (Hpast I) as [f Hf]. rewrite Hf.
    destruct ((uid c =? 0)%nat || (uid c =? owner f)%nat) eqn:Hperm; simpl.
    + rewrite lookup_insert_eq. split; [eauto|]. split; [eauto|].
      intros f' [= <-]. right; left. done.
    + rewrite Hf. split; [eauto|]. split; [eauto|].
      intros f' [= <-]. right; right. exists f. repeat split; try done.
      intros _ Hown. apply orb_false_iff in Hperm as [_ Hne].
      apply Nat.eqb_neq in Hne. done.
  - (* super().__init__ *)
    split; [done|]. split; [auto|]. intros f' Hf'. right; right. by exists f'.
  - split; [done|]. split; [auto|]. intros f' Hf'. right; right. by exists f'.
Qed.

Lemma race_inv_step k st : race_inv st -> race_inv (step tmpdir k st).
Proof.
  intros [Hseen Hmode].
  destruct (procs st !! k) as [[c p]|] eqn:Hk.
  2: { unfold step. by rewrite Hk. }
  destruct (step_procs k st c p Hk) as [Hprocs Hfiles].
  pose proof (step1_file c p (files st) (Hseen k c p Hk)) as (Hkeep & Hpast & Hfile).
  pose proof (lookup_lt_Some _ _ _ Hk) as Hlen.
  split.
  - intros k' c' p'. rewrite Hprocs, Hfiles.
    destruct (decide (k = k')) as [<-|Hne].
    + rewrite list_lookup_insert_eq by done. intros [= <- <-]. done.
    + rewrite list_lookup_insert_ne by done. intros Hk' Hp'.
      apply Hkeep. eauto.
  - intros f'. rewrite Hprocs, Hfiles. intros Hf'.
    destruct (Hfile f' Hf') as [(Hp' & Hown & _)|[(_ & Hm)|(f & Hf & Hm & Hown & Hnot)]].
    + right. exists k, c. rewrite list_lookup_insert_eq by done.
      split; [by rewrite Hp'|done].
    + by left.
    + destruct (Hmode f Hf) as [H777|(k0 & c0 & Hk0 & Hown0)].
      * left. congruence.
      * right. exists k0, c0. split; [|congruence].
        destruct (decide (k = k0)) as [<-|Hne].
        -- rewrite Hk in Hk0. simplify_eq. by destruct Hnot.
        -- by rewrite list_lookup_insert_ne.
Qed.

Lemma race_inv_run sched st : race_inv st -> race_inv (run tmpdir sched st).
Proof.
  revert st. induction sched as [|k sched IH]; [done|].
  intros st Hinv. simpl. by apply IH, race_inv_step.
Qed.

Lemma step1_progress c p s :
  (steps_left (step1 tmpdir c p s).1 <= pred (steps_left p))%nat.
Proof.
  destruct p; simpl; try lia.
  - destruct (negb _); simpl; lia.
  - destruct (open_w _ _ _) as [[[]|e] s1]; simpl; lia.
  - destruct (chmod _ _ _ _) as [[[]|e] s1]; simpl; lia.
Qed.

Lemma step_length k st : length (procs (step tmpdir k st)) = length (procs st).
Proof.
  destruct (procs st !! k) as [[c p]|] eqn:Hk.
  - destruct (step_procs k st c p Hk) as [-> _]. apply length_insert.
  - unfold step. by rewrite Hk.
Qed.

Lemma run_length sched st :
  length (procs (run tmpdir sched st)) = length (procs st).
Proof.
  revert st. induction sched as [|k sched IH]; [done|].
  intros st. simpl. by rewrite IH, step_length.
Qed.

(** Each step a schedule gives to process [k] takes it one step further,
    whatever the other processes do. *)
Lemma run_steps_left sched st k c p0 :
  procs st !! k = Some (c, p0) ->
  exists p, procs (run tmpdir sched st) !! k = Some (c, p) /\
    (steps_left p <= steps_left p0 - count_occ Nat.eq_dec sched k)%nat.
Proof.
  revert st p0. induction sched as [|k' sched IH]; intros st p0 Hk.
  - exists p0. split; [done|]. simpl. lia.
  - simpl run. destruct (Nat.eq_dec k' k) as [->|Hne].
    + destruct (step_procs k st c p0 Hk) as [Hprocs _].
      pose proof (lookup_lt_Some _ _ _ Hk) as Hlen.
      pose proof (step1_progress c p0 (files st)) as Hless.
      destruct (IH (step tmpdir k st) (step1 tmpdir c p0 (files st)).1)
        as (p & Hp & Hle).
      { rewrite Hprocs. by apply list_lookup_insert_eq. }
      exists p. split; [done|]. simpl.
      destruct (Nat.eq_dec k k); [lia|done].
    + destruct (IH (step tmpdir k' st) p0) as (p & Hp & Hle).
      { destruct (procs st !! k') as [[c' p']|] eqn:Hk'.
        - destruct (step_procs k' st c' p' Hk') as [-> _].
          by rewrite list_lookup_insert_ne.
        - unfold step. by rewrite Hk'. }
      exists p. split; [done|]. simpl.
      destruct (Nat.eq_dec k' k); [done|lia].
Qed.

(** A schedule that gives four steps to each process leaves them all out of
    the constructor. *)
Lemma fair_all_done cs sched s :
  (forall k, (k < length cs)%nat -> (4 <= count_occ Nat.eq_dec sched k)%nat) ->
  all_done (run tmpdir sched (start cs s)).
Proof.
  intros Hfair k c p Hk.
  pose proof (lookup_lt_Some _ _ _ Hk) as Hlen.
  rewrite run_length in Hlen. simpl in Hlen. rewrite length_fmap in Hlen.
  destruct (lookup_lt_is_Some_2 cs k Hlen) as [c0 Hc0].
  destruct (run_steps_left sched (start cs s) k c0 AtExists) as (p' & Hp' & Hle).
  { simpl. by rewrite list_lookup_fmap, Hc0. }
  rewrite Hk in Hp'. injection Hp' as -> ->.
  specialize (Hfair k Hlen). simpl in Hle.
  destruct p'; simpl in *; first [done | lia].
Qed.

(** When every process is out of the constructor, the lock file is there
    with the bits [0o777]. *)
Lemma race_end_state cs sched s :
  cs ≠ [] ->
  s !! lock_path = None ->
  all_done (run tmpdir sched (start cs s)) ->
  exists f, files (run tmpdir sched (start cs s)) !! lock_path = Some f /\
    mode f = o777.
Proof.
  intros Hcs Hnone Hdone.
  destruct (race_inv_run sched (start cs s) (race_inv_start cs s Hnone))
    as [Hseen Hmode].
  assert (0 < length (procs (run tmpdir sched (start cs s))))%nat as Hlen.
  { rewrite run_length. simpl. rewrite length_fmap. destruct cs; [done|simpl; lia]. }
  destruct (lookup_lt_is_Some_2 _ _ Hlen) as [[c p] Hk].
  pose proof (Hdone 0%nat c p Hk) as Hp.
  destruct (Hseen 0%nat c p Hk) as [f Hf]; [by destruct p|].
  exists f. split; [done|].
  destruct (Hmode f Hf) as [?|(k0 & c0 & Hk0 & _)]; [done|].
  by specialize (Hdone k0 c0 AtChmod Hk0).
Qed.

(** C5. On a file system without the lock file, the constructor returns
    the lock on a file it has created, which every user may read and write,
    and a later construction, by any user, changes nothing. When several
    processes construct the lock at once, every schedule that gives each of
    them its four steps ends with all of them out of the constructor and the
    file there with the bits [0o777], for every user to read and write. *)
Theorem lock_file_initialised c cs sched s :
  s !! lock_path = None ->
  cs ≠ [] ->
  (forall k, (k < length cs)%nat -> (4 <= count_occ Nat.eq_dec sched k)%nat) ->
  (exists f,
     __init__ tmpdir c s = (Ret lock_obj, <[lock_path := f]> s) /\
     mode f = o777 /\ world_rw f /\
     forall c', __init__ tmpdir c' (<[lock_path := f]> s)
                = (Ret lock_obj, <[lock_path := f]> s)) /\
  all_done (run tmpdir sched (start cs s)) /\
  (exists f,
     files (run tmpdir sched (start cs s)) !! lock_path = Some f /\
     mode f = o777 /\ world_rw f).
Proof.
  intros Hnone Hcs Hfair. split; [|split].
  - destruct (init_creates c s Hnone) as (f & Hinit & _ & Hm).
    exists f. repeat split; try done.
    + by apply mode_777_world_rw.
    + intros c'. apply (init_existing c' _ f). by rewrite lookup_insert_eq.
  - by apply fair_all_done.
  - destruct (race_end_state cs sched s Hcs Hnone) as (f & Hf & Hm).
    { by apply fair_all_done. }
    exists f. repeat split; try done. by apply mode_777_world_rw.
Qed.

End lock_facts.

(** ** The race of the scenario *)

Section lock_scenario_facts.

Import AsmProcessLock LockScenario.

Local Open Scope Z_scope.

(** The race of [alice] and [bob], step by step in turn: [alice] creates the
    file with the bits [0o644], on which [bob]'s [open] raises; [alice] goes
    on to [chmod], and the file is left with the bits [0o777]. *)
Example race_in_turn :
  let st := run tmp in_turn (start [alice; bob] ∅) in
  procs st = [(alice, Done (Ret (InterProcessLock_init "/tmp/asm_lock")));
              (bob, Done (Raise PermissionError))] /\
  files st !! "/tmp/asm_lock"
  = Some {| owner := 1000; group := 1000; mode := o777; content := "" |}.
Proof. vm_compute. by split. Qed.

Lemma lock_file_initialised_witness :
  (∅ : gmap string file) !! lock_path tmp = None /\
  [alice; bob] ≠ [] /\
  (forall k, (k < length [alice; bob])%nat ->
     (4 <= count_occ Nat.eq_dec in_turn k)%nat) /\
  (exists f,
     __init__ tmp alice ∅
     = (Ret (InterProcessLock_init (lock_path tmp)), <[lock_path tmp := f]> ∅) /\
     mode f = o777 /\ world_rw f /\
     forall c', __init__ tmp c' (<[lock_path tmp := f]> ∅)
                = (Ret (InterProcessLock_init (lock_path tmp)),
                   <[lock_path tmp := f]> ∅)) /\
  all_done (run tmp in_turn (start [alice; bob] ∅)) /\
  (exists f,
     files (run tmp in_turn (start [alice; bob] ∅)) !! lock_path tmp = Some f /\
     mode f = o777 /\ world_rw f).
Proof.
  assert (forall k, (k < length [alice; bob])%nat ->
            (4 <= count_occ Nat.eq_dec in_turn k)%nat) as Hfair.
  { intros [|[|k]] Hk; simpl in *; lia. }
  split; [reflexivity|]. split; [discriminate|]. split; [exact Hfair|].
  apply (lock_file_initialised tmp alice [alice; bob] in_turn ∅);
    [reflexivity | discriminate | exact Hfair].
Defined.

End lock_scenario_facts.

(** ** The guarded region of [main] *)

Section main_facts.

Import Main.

Context {St : Type}.
Variable main_functions : action -> St -> outcome pyval * St.
(** The [try] statement calls the command function, once and first, and
    then at most prints; the lock is not touched. *)
Lemma body_trace a (s : state St) :
  let '(r, s') := body main_functions a s in
  r = exit_of (main_functions a (skills s)).1 /\
  skills s' = (main_functions a (skills s)).2 /\
  held s' = held s /\
  exists prints,
    trace s' = trace s ++ Invoke a :: prints /\ Forall is_print prints.
Proof.
  unfold body, call.
  destruct (main_functions a (skills s)) as [[[|x|]|[| | | |cls msg|cls msg]] k];
    simpl; repeat split; try done.
  all: try (by exists []).
  all: eexists [_]; rewrite <- app_assoc; split; [done|].
  all: by repeat constructor.
Qed.

(** C7. When [acquire] fails, [main] leaves the [with] statement with its
    exception and nothing has happened: no command function has run. When
    it succeeds, the trace of the guarded region is [Acquire], then the call
    of the command function, then at most output, then [Release], on each of
    the exit paths: [return 1], [return 0], the exit code of an
    [AsmException], and any other exception, which goes on to the caller. *)
Theorem command_runs_under_lock (acquire : outcome unit) a (s : state St) :
  let '(r, s') := main main_functions acquire a s in
  match acquire with
  | Raise e => r = Raise e /\ s' = s
  | Ret _ =>
      r = exit_of (main_functions a (skills s)).1 /\
      skills s' = (main_functions a (skills s)).2 /\
      held s' = false /\
      exists prints,
        trace s' = trace s ++ Acquire :: Invoke a :: prints ++ [Release] /\
        Forall is_print prints
  end.
Proof.
  unfold main, with_, lock_enter. destruct acquire as [[]|e]; [|done].
  set (s1 := emit Acquire _).
  pose proof (body_trace a s1) as Hbody.
  destruct (body main_functions a s1) as [r s2].
  destruct Hbody as (Hr & Hk & _ & prints & Htr & Hpr).
  repeat split; try done.
  exists prints. split; [|done]. simpl. rewrite Htr. simpl.
  by rewrite <- !app_assoc.
Qed.

End main_facts.

(** The exit code of the base class. *)
Example get_error_code_AsmException :
  Main.get_error_code "AsmException" = 213%Z.
Proof. reflexivity. Qed.

(** The exit paths at work: a command that raises an exception which is not
    an [AsmException] still has the lock released behind it. *)
Example other_exception_releases :
  let cmd (a : Main.action) (k : nat) :=
    (Raise (A := Main.pyval) (OtherException "OSError" "disk full"), Datatypes.S k) in
  let '(r, s') :=
    Main.main cmd (Ret tt) Main.Install
      {| Main.skills := 0%nat; Main.held := false; Main.trace := [] |} in
  r = Raise (OtherException "OSError" "disk full") /\
  Main.held s' = false /\
  Main.trace s' = [Main.Acquire; Main.Invoke Main.Install; Main.Release].
Proof. vm_compute. by repeat split. Qed.

(** * Further properties *)

(** ** The TTL cache: hits, misses and what a read touches *)

Section cache_more.

Import CachedProperty CacheClock.

Context {V S : Type}.
Implicit Types (d : cached_property V S) (w : world V S) (i j : positive).
Implicit Types (now : Q) (v : V) (name : string).

Lemma app_one_neq {A} (l : list A) (x : A) : l ++ [x] ≠ l.
Proof.
  intros H. apply (f_equal length) in H. rewrite length_app in H.
  simpl in H. lia.
Qed.

(** The state of the wrapped computations after the handler. *)
Lemma recompute_env d i now w :
  env (recompute d i now w).2 = (fget d i (env w)).2.
Proof.
  unfold recompute. destruct (fget d i (env w)) as [[v|x] e]; [|done].
  set (w1 := log_call _ _).
  pose proof (calls_setitem i (__name__ d) (v, now) w1) as [_ Hv].
  by destruct (cache_of_inst i w1).
Qed.



(** What [cache[self.__name__] = ...] does to the other keys of the
    instance. *)
Lemma entry_of_setitem_ne i name name' (item : V * Q) w :
  name ≠ name' ->
  entry_of (setitem (cache_of_inst i w).1 name item (cache_of_inst i w).2)
    i name'
  = entry_of w i name'.
Proof.
  intros Hne. unfold cache_of_inst, getattr_cache.
  destruct (attrs w !! i) as [a|] eqn:Ha; simpl.
  - unfold entry_of, cache_dict, setitem, deref; simpl.
    rewrite Ha, !lookup_insert_eq; simpl. by rewrite lookup_insert_ne.
  - unfold entry_of, cache_dict, setitem, deref; simpl.
    rewrite Ha, !lookup_insert_eq; simpl.
    rewrite ?lookup_insert_eq; simpl. by rewrite lookup_insert_ne.
Qed.

(** X4. The cached properties of one instance are kept apart by name: a
    read of one, recomputing or not, leaves the entry of every property of
    another name as it is. *)
Theorem other_property_untouched d i now w name :
  name ≠ __name__ d ->
  entry_of (__get__ d i now w).2 i name = entry_of w i name.
Proof.
  intros Hne. unfold __get__.
  destruct (try_cached d i now w) as [v|x]; [done|].
  destruct (caught x); [|done].
  unfold recompute. destruct (fget d i (env w)) as [[v|y] e]; [|done].
  set (w1 := log_call _ _).
  pose proof (entry_of_setitem_ne i (__name__ d) name (v, now) w1) as Hs.
  destruct (cache_of_inst i w1) as [cache w2]; simpl in *.
  by rewrite Hs.
Qed.


End cache_more.

(** ** The TTL cache: manual invalidation, the [_cache] attribute, timestamps *)

Section cache_invalidation.

Import CachedProperty CacheClock.

Context {V S : Type}.
Implicit Types (d : cached_property V S) (w : world V S) (i j : positive).
Implicit Types (now : Q) (v : V) (name : string).


(** X7. An entry can be invalidated once: the second [del] of the same
    entry raises [KeyError] and changes nothing. *)
Theorem invalidate_twice_raises name i w w' :
  del_cache name i w = (Ret tt, w') ->
  del_cache name i w' = (Raise KeyError, w').
Proof.
  unfold del_cache, getattr_cache.
  destruct (attrs w !! i) as [a|] eqn:Ha; [|done].
  destruct (deref w a !! name) eqn:Hk; [|done].
  intros [= <-]. simpl. rewrite Ha. unfold deref at 1; simpl.
  by rewrite lookup_insert_eq; simpl; rewrite lookup_delete_eq.
Qed.

(** X8. Invalidation removes the one entry: the other cached properties of
    the instance and everything cached by other instances stay, no
    computation is invoked and the state of the computations is as before. *)
Theorem invalidation_frame name i w w' :
  heap_ok w ->
  del_cache name i w = (Ret tt, w') ->
  entry_of w' i name = None /\
  (forall n, n ≠ name -> entry_of w' i n = entry_of w i n) /\
  (forall j, j ≠ i -> cache_dict w' j = cache_dict w j) /\
  env w' = env w /\ calls w' = calls w.
Proof.
  intros [Hwf Hsep]. unfold del_cache, getattr_cache.
  destruct (attrs w !! i) as [a|] eqn:Ha; [|done].
  destruct (deref w a !! name) eqn:Hk; [|done].
  intros [= <-]. repeat split; try done.
  - unfold entry_of, cache_dict, deref; simpl.
    by rewrite Ha, lookup_insert_eq; simpl; rewrite lookup_delete_eq.
  - intros n Hn. unfold entry_of, cache_dict, deref; simpl.
    rewrite Ha, lookup_insert_eq; simpl. by rewrite lookup_delete_ne.
  - intros j Hj. unfold cache_dict, deref; simpl.
    destruct (attrs w !! j) as [b|] eqn:Hb; [|done].
    rewrite lookup_insert_ne; [done|].
    intros ->. apply Hj. eauto.
Qed.

(** A step of client code keeps the dictionary an instance has. *)
Lemma run_op_attr (o : access_op V S) w i a :
  attrs w !! i = Some a -> attrs (run_op o w) !! i = Some a.
Proof.
  intros Ha. destruct o as [d k now|name k]; simpl.
  - unfold __get__. destruct (try_cached d k now w) as [v|x]; [done|].
    destruct (caught x); [|done].
    unfold recompute. destruct (fget d k (env w)) as [[v|y] e]; [|done].
    unfold cache_of_inst, getattr_cache; simpl.
    destruct (attrs w !! k) as [b|] eqn:Hk; [done|]. simpl.
    rewrite lookup_insert_ne; [done|]. intros ->. congruence.
  - unfold del_cache, getattr_cache.
    destruct (attrs w !! k) as [b|]; [|done].
    by destruct (deref w b !! name).
Qed.

(** X9. Once an instance has its [_cache] dictionary, no read and no
    invalidation binds the attribute anew: the dictionary object stays the
    same one. *)
Theorem cache_attribute_stable (os : list (access_op V S)) w i a :
  attrs w !! i = Some a -> attrs (run_ops os w) !! i = Some a.
Proof.
  unfold run_ops. revert w. induction os as [|o os IH]; [done|].
  intros w Ha. simpl. by apply IH, run_op_attr.
Qed.

Lemma stamps_le_mono t t' w : t <= t' -> stamps_le t w -> stamps_le t' w.
Proof.
  intros Ht Hs a m name v lu Ha Hm. specialize (Hs a m name v lu Ha Hm). lra.
Qed.

(** Storing an item stamped [now] at an address. *)
Lemma stamps_le_setitem a name v now w :
  stamps_le now w -> stamps_le now (setitem a name (v, now) w).
Proof.
  intros Hs b m n u lu. unfold setitem, deref; simpl.
  destruct (decide (a = b)) as [<-|Hne].
  - rewrite lookup_insert_eq. intros [= <-].
    destruct (decide (name = n)) as [<-|Hn].
    + rewrite lookup_insert_eq. intros [= <- <-]. lra.
    + rewrite lookup_insert_ne by done.
      destruct (store w !! a) as [m0|] eqn:Hm0; simpl; [|by rewrite lookup_empty].
      by apply (Hs a m0 n u lu).
  - rewrite lookup_insert_ne by done. by apply Hs.
Qed.

Lemma stamps_le_get d i now t w :
  t <= now -> stamps_le t w -> stamps_le now (__get__ d i now w).2.
Proof.
  intros Ht Hs%(stamps_le_mono t now w Ht). unfold __get__.
  destruct (try_cached d i now w) as [v|x]; [done|].
  destruct (caught x); [|done].
  unfold recompute. destruct (fget d i (env w)) as [[v|y] e]; [|done].
  unfold cache_of_inst, getattr_cache; simpl.
  destruct (attrs w !! i) as [a|]; simpl.
  - by apply stamps_le_setitem.
  - apply stamps_le_setitem. intros b m n u lu; simpl.
    destruct (decide (fresh (dom (store w)) = b)) as [<-|Hne].
    + rewrite lookup_insert_eq. intros [= <-]. by rewrite lookup_empty.
    + rewrite lookup_insert_ne by done. by apply Hs.
Qed.

Lemma stamps_le_del name i t w :
  stamps_le t w -> stamps_le t (del_cache name i w).2.
Proof.
  intros Hs. unfold del_cache, getattr_cache.
  destruct (attrs w !! i) as [a|]; [|done].
  destruct (deref w a !! name) eqn:Hk; [|done]. simpl.
  intros b m n u lu; simpl. destruct (decide (a = b)) as [<-|Hne].
  - rewrite lookup_insert_eq. intros [= <-].
    intros [_ Hm]%lookup_delete_Some. revert Hm. unfold deref.
    destruct (store w !! a) as [m0|] eqn:Hm0; simpl; [|by rewrite lookup_empty].
    by apply (Hs a m0 n u lu).
  - rewrite lookup_insert_ne by done. by apply Hs.
Qed.

Lemma stamps_le_run (os : list (access_op V S)) t w :
  clock_ok t os -> stamps_le t w -> stamps_le (last_time t os) (run_ops os w).
Proof.
  unfold run_ops. revert t w. induction os as [|o os IH]; [done|].
  intros t w Hclock Hs. destruct o as [d i now|name i]; simpl in *.
  - destruct Hclock as [Ht Hclock]. apply IH; [done|].
    by apply (stamps_le_get d i now t w).
  - apply IH; [done|]. by apply stamps_le_del.
Qed.

(** X10. Under a clock that never goes back, no entry is ever stamped
    later than the latest reading: whatever reads and invalidations are
    run from the initial state, every entry [(v, last_update)] of every
    dictionary has [last_update] at most the reading of the last read. *)
Theorem stamps_never_ahead (os : list (access_op V S)) (e : S) t :
  clock_ok t os ->
  stamps_le (last_time t os) (run_ops os (init_world e)).
Proof.
  intros Hclock. apply stamps_le_run; [done|].
  intros a m name v lu; simpl. by rewrite lookup_empty.
Qed.


End cache_invalidation.

(** ** The further properties of the cache at work *)

Section cache_more_scenario.

Import CachedProperty CacheClock Scenario Scenario2.

(** Closes a goal on concrete data by evaluation. *)
Ltac evaluated :=
  vm_compute;
  repeat match goal with |- _ /\ _ => split end;
  first [reflexivity | discriminate | exact I | intros; discriminate].


Lemma other_property_untouched_witness :
  "other" ≠ __name__ counter /\
  entry_of (__get__ counter 1 5 (__get__ other 1 0 w1).2).2 1 "other"
  = entry_of (__get__ other 1 0 w1).2 1 "other".
Proof.
  split; [evaluated|].
  apply (other_property_untouched counter 1 5 (__get__ other 1 0 w1).2 "other");
    evaluated.
Defined.

(** The two properties of instance 1 side by side: the read of [count] at
    5 s recomputes it, and [other] keeps its entry of 0 s. *)
Example two_properties_side_by_side :
  let w := (__get__ counter 1 5 (__get__ other 1 0 w1).2).2 in
  entry_of w 1 "count" = Some (2%nat, 5) /\
  entry_of w 1 "other" = Some (101%nat, 0).
Proof. evaluated. Qed.



Lemma invalidate_twice_raises_witness :
  del_cache "count" 1 w1 = (Ret tt, (del_cache "count" 1 w1).2) /\
  del_cache "count" 1 (del_cache "count" 1 w1).2
  = (Raise KeyError, (del_cache "count" 1 w1).2).
Proof.
  split; [evaluated|].
  apply (invalidate_twice_raises "count" 1 w1); evaluated.
Defined.

Lemma invalidation_frame_witness :
  let w := (__get__ counter 2 0 (__get__ other 1 0 w1).2).2 in
  let w' := (del_cache "count" 1 w).2 in
  heap_ok w /\
  del_cache "count" 1 w = (Ret tt, w') /\
  entry_of w' 1 "count" = None /\
  (forall n, n ≠ "count" -> entry_of w' 1 n = entry_of w 1 n) /\
  (forall j, j ≠ 1%positive -> cache_dict w' j = cache_dict w j) /\
  env w' = env w /\ calls w' = calls w.
Proof.
  intros w w'.
  assert (heap_ok w) as Hok.
  { apply (heap_ok_run_ops
             [Read counter 1 0; Read other 1 0; Read counter 2 0] 0%nat). }
  split; [exact Hok|]. split; [evaluated|].
  apply (invalidation_frame "count" 1 w w' Hok); evaluated.
Defined.

Lemma cache_attribute_stable_witness :
  attrs w1 !! 1%positive = Some 1%positive /\
  attrs (run_ops [Invalidate "count" 1; Read counter 1 3; Read other 1 4] w1)
    !! 1%positive = Some 1%positive.
Proof.
  split; [evaluated|].
  apply (cache_attribute_stable
           [Invalidate "count" 1; Read counter 1 3; Read other 1 4] w1 1 1);
    evaluated.
Defined.

Lemma stamps_never_ahead_witness :
  let os := [Read counter 1 0; Read counter 1 (1 # 2); Invalidate "count" 1;
             Read counter 2 (6 # 5)] in
  clock_ok 0 os /\
  stamps_le (last_time 0 os) (run_ops os (init_world 0%nat)).
Proof.
  intros os.
  assert (clock_ok 0 os) as Hclock by evaluated.
  split; [exact Hclock|].
  apply (stamps_never_ahead os 0%nat 0 Hclock).
Defined.


End cache_more_scenario.

(** ** The process lock: more on the race *)

Section lock_more.

Import AsmProcessLock LockRace.

Local Open Scope Z_scope.

Variable tmpdir : string.

Abbreviation lock_path := (lock_path tmpdir).
Abbreviation lock_obj := (InterProcessLock_init (lock_path)).
Abbreviation race_inv := (race_inv tmpdir).
Abbreviation step1 := (step1 tmpdir).
Abbreviation step := (step tmpdir).
Abbreviation run := (run tmpdir).

(** The process table after a step of process [k], entry by entry. *)
Lemma step_lookup k k' st c p :
  procs st !! k = Some (c, p) ->
  procs (step k st) !! k'
  = if decide (k = k') then Some (c, (step1 c p (files st)).1)
    else procs st !! k'.
Proof.
  intros Hk. destruct (step_procs tmpdir k st c p Hk) as [-> _].
  pose proof (lookup_lt_Some _ _ _ Hk) as Hlen.
  case_decide as Hkk.
  - subst k'. by apply list_lookup_insert_eq.
  - by apply list_lookup_insert_ne.
Qed.

(** A step never changes the owner of the file; the process that creates
    the file owns it and has its [chmod] to do. *)
Lemma step1_owner c p s f' :
  (step1 c p s).2 !! lock_path = Some f' ->
  match s !! lock_path with
  | Some f => owner f' = owner f
  | None => (step1 c p s).1 = AtChmod /\ uid c = owner f'
  end.
Proof.
  destruct p as [| | | |r]; simpl.
  - destruct (negb _); simpl; intros ->; done.
  - unfold open_w. destruct (s !! lock_path) as [f|] eqn:Hf.
    + destruct (access c f 6); simpl.
      * rewrite lookup_insert_eq. by intros [= <-].
      * rewrite Hf. by intros [= <-].
    + simpl. rewrite lookup_insert_eq. by intros [= <-].
  - unfold chmod. destruct (s !! lock_path) as [f|] eqn:Hf.
    + destruct (_ || _); simpl.
      * rewrite lookup_insert_eq. by intros [= <-].
      * rewrite Hf. by intros [= <-].
    + simpl. by rewrite Hf.
  - by intros ->.
  - by intros ->.
Qed.

(** A process that is going to return the lock stays so. *)
Lemma step1_winner c p s f :
  s !! lock_path = Some f ->
  winner_state tmpdir (owner f) c p ->
  winner_state tmpdir (owner f) c (step1 c p s).1.
Proof.
  intros Hf. destruct p as [| | | |[r|e]]; simpl; try done.
  intros Hown. unfold chmod. rewrite Hf.
  apply Nat.eqb_eq in Hown. by rewrite Hown, orb_true_r.
Qed.

Lemma has_winner_step k st :
  has_winner tmpdir st -> has_winner tmpdir (step k st).
Proof.
  intros Hwin. destruct (procs st !! k) as [[c p]|] eqn:Hk.
  2: { unfold step, AsmProcessLock.step. by rewrite Hk. }
  destruct (step_procs tmpdir k st c p Hk) as [_ Hfiles].
  intros f'. rewrite Hfiles. intros Hf'.
  pose proof (step1_owner c p (files st) f' Hf') as Hown.
  destruct (files st !! lock_path) as [f|] eqn:Hf.
  - destruct (Hwin f Hf) as (k0 & c0 & p0 & Hk0 & Hw).
    destruct (decide (k = k0)) as [<-|Hne].
    + rewrite Hk in Hk0. injection Hk0 as <- <-.
      exists k, c, (step1 c p (files st)).1.
      rewrite (step_lookup k k st c p Hk), decide_True by done.
      split; [done|]. rewrite Hown. by apply step1_winner.
    + exists k0, c0, p0.
      rewrite (step_lookup k k0 st c p Hk), decide_False by done.
      by rewrite Hown.
  - destruct Hown as [Hp' Hown]. exists k, c, AtChmod.
    rewrite (step_lookup k k st c p Hk), decide_True by done.
    by rewrite Hp'.
Qed.

Lemma has_winner_run sched st :
  has_winner tmpdir st -> has_winner tmpdir (run sched st).
Proof.
  revert st. induction sched as [|k sched IH]; [done|].
  intros st Hwin. simpl. by apply IH, has_winner_step.
Qed.

(** X12. The race has a winner: when the file was not there and the
    processes are all out of the constructor, whatever the schedule, one of
    them at least has returned the lock. *)
Theorem race_has_winner cs sched s :
  s !! lock_path = None ->
  cs ≠ [] ->
  all_done (run sched (start cs s)) ->
  exists k c, procs (run sched (start cs s)) !! k = Some (c, Done (Ret lock_obj)).
Proof.
  intros Hnone Hcs Hdone.
  destruct (race_end_state tmpdir cs sched s Hcs Hnone Hdone) as (f & Hf & _).
  assert (has_winner tmpdir (start cs s)) as Hstart.
  { intros f0. simpl. by rewrite Hnone. }
  destruct (has_winner_run sched _ Hstart f Hf) as (k & c & p & Hk & Hw).
  exists k, c. pose proof (Hdone k c p Hk) as Hp.
  destruct p as [| | | |[r|e]]; try done. simpl in Hw. by subst r.
Qed.

(** What a process leaves the constructor with, one step on. *)
Lemma step1_exit c p s r :
  (past_open p -> is_Some (s !! lock_path)) ->
  (forall r0, p = Done r0 -> r0 = Ret lock_obj \/ r0 = Raise PermissionError) ->
  (step1 c p s).1 = Done r ->
  r = Ret lock_obj \/ r = Raise PermissionError.
Proof.
  intros Hpast Hold. destruct p as [| | | |r0]; simpl.
  - by destruct (negb _).
  - unfold open_w. destruct (s !! lock_path) as [f|]; [|done].
    destruct (access c f 6); simpl; [done|]. intros [= <-]. by right.
  - unfold chmod. destruct (Hpast I) as [f ->].
    destruct (_ || _); simpl; [done|]. intros [= <-]. by right.
  - intros [= <-]. by left.
  - intros [= <-]. by apply Hold.
Qed.

Lemma exits_ok_step k st :
  race_inv st -> exits_ok tmpdir st -> exits_ok tmpdir (step k st).
Proof.
  intros [Hseen _] Hex. destruct (procs st !! k) as [[c p]|] eqn:Hk.
  2: { unfold step, AsmProcessLock.step. by rewrite Hk. }
  intros k' c' r. rewrite (step_lookup k k' st c p Hk).
  case_decide as Hkk; [|by apply Hex].
  intros [= <- Hp']. apply (step1_exit c p (files st) r); [eauto| |done].
  intros r0 ->. by apply (Hex k c r0).
Qed.

Lemma exits_ok_run sched st :
  race_inv st -> exits_ok tmpdir st -> exits_ok tmpdir (run sched st).
Proof.
  revert st. induction sched as [|k sched IH]; [done|].
  intros st Hinv Hex. simpl. apply IH.
  - by apply race_inv_step.
  - by apply exits_ok_step.
Qed.

(** X13. Whatever the schedule, a process of the race leaves the
    constructor with the lock on [lock_path] or with [PermissionError],
    and with nothing else: [chmod] never finds the file gone. *)
Theorem race_exits cs sched s k c r :
  s !! lock_path = None ->
  procs (run sched (start cs s)) !! k = Some (c, Done r) ->
  r = Ret lock_obj \/ r = Raise PermissionError.
Proof.
  intros Hnone. apply exits_ok_run.
  - by apply race_inv_start.
  - intros k0 c0 r0. simpl.
    by intros (c' & [= _ ?] & _)%list_lookup_fmap_Some.
Qed.

(** *** Processes of one user *)

Lemma testbit_6 n : 0 <= n -> Z.testbit 6 n = bool_decide (n = 1 \/ n = 2).
Proof.
  intros Hn. destruct (decide (n = 0)) as [->|H0]; [done|].
  destruct (decide (n = 1)) as [->|H1]; [done|].
  destruct (decide (n = 2)) as [->|H2]; [done|].
  rewrite bool_decide_eq_false_2 by lia.
  apply Z.bits_above_log2; [lia|]. change (Z.log2 6) with 2. lia.
Qed.

(** The mask [6] selects the bits 1 and 2. *)
Lemma land_6_spec x :
  Z.land x 6 = 6 <-> Z.testbit x 1 = true /\ Z.testbit x 2 = true.
Proof.
  split.
  - intros H. split.
    + apply (f_equal (fun z => Z.testbit z 1)) in H.
      rewrite Z.land_spec in H. by apply andb_true_iff in H as [? _].
    + apply (f_equal (fun z => Z.testbit z 2)) in H.
      rewrite Z.land_spec in H. by apply andb_true_iff in H as [? _].
  - intros [H1 H2]. apply Z.bits_inj'. intros n Hn.
    rewrite Z.land_spec, (testbit_6 n Hn).
    case_bool_decide as Hc; [|apply andb_false_r].
    destruct Hc as [->| ->]; [by rewrite H1 | by rewrite H2].
Qed.

Lemma owner_rw_spec m :
  owner_rw m <-> Z.testbit m 7 = true /\ Z.testbit m 8 = true.
Proof.
  unfold owner_rw. rewrite land_6_spec, !Z.land_spec, !Z.shiftr_spec by lia.
  change (Z.testbit 7 1) with true. change (Z.testbit 7 2) with true.
  by rewrite !andb_true_r.
Qed.

(** A file created under a mask that leaves [0o600] is the owner's to read
    and write. *)
Lemma owner_rw_created m : Z.land m 384 = 0 -> owner_rw (Z.ldiff o666 m).
Proof.
  intros Hm. apply owner_rw_spec. rewrite !Z.ldiff_spec.
  assert (Z.testbit m 7 = false /\ Z.testbit m 8 = false) as [-> ->]; [|done].
  split.
  - apply (f_equal (fun z => Z.testbit z 7)) in Hm.
    rewrite Z.land_spec, Z.bits_0 in Hm. by apply andb_false_iff in Hm as [?|?].
  - apply (f_equal (fun z => Z.testbit z 8)) in Hm.
    rewrite Z.land_spec, Z.bits_0 in Hm. by apply andb_false_iff in Hm as [?|?].
Qed.

Lemma owner_access c f :
  uid c = owner f -> owner_rw (mode f) -> access c f 6 = true.
Proof.
  intros Hown Hrw. unfold access. destruct (uid c =? 0)%nat; [done|].
  apply Nat.eqb_eq in Hown. rewrite Hown. by apply Z.eqb_eq.
Qed.

Lemma step1_one_user u c p s :
  uid c = u -> Z.land (umask c) 384 = 0 ->
  (past_open p -> is_Some (s !! lock_path)) ->
  (forall f, s !! lock_path = Some f -> owner f = u /\ owner_rw (mode f)) ->
  (forall e, p ≠ Done (Raise e)) ->
  (forall e, (step1 c p s).1 ≠ Done (Raise e)) /\
  (forall f', (step1 c p s).2 !! lock_path = Some f' ->
     owner f' = u /\ owner_rw (mode f')).
Proof.
  intros Hu Hmask Hpast Hfile Hp. destruct p as [| | | |r]; simpl.
  - by destruct (negb _).
  - unfold open_w. destruct (s !! lock_path) as [f|] eqn:Hf.
    + destruct (Hfile f eq_refl) as [Hown Hrw].
      rewrite owner_access by (done || congruence). simpl.
      split; [done|]. rewrite lookup_insert_eq. by intros f' [= <-].
    + simpl. split; [done|]. rewrite lookup_insert_eq. intros f' [= <-]; simpl.
      split; [done|]. by apply owner_rw_created.
  - unfold chmod. destruct (Hpast I) as [f Hf]. rewrite Hf.
    destruct (Hfile f Hf) as [Hown _].
    assert ((uid c =? owner f)%nat = true) as ->
      by (apply Nat.eqb_eq; congruence).
    rewrite orb_true_r. simpl. split; [done|].
    rewrite lookup_insert_eq. intros f' [= <-]; simpl.
    split; [done|]. by apply owner_rw_spec.
  - done.
  - done.
Qed.

Lemma one_user_inv_step u k st :
  race_inv st -> one_user_inv tmpdir u st -> one_user_inv tmpdir u (step k st).
Proof.
  intros [Hseen _] [Hprocs Hfile]. destruct (procs st !! k) as [[c p]|] eqn:Hk.
  2: { unfold step, AsmProcessLock.step. by rewrite Hk. }
  destruct (Hprocs k c p Hk) as [[Hu Hmask] Hp].
  destruct (step1_one_user u c p (files st) Hu Hmask (Hseen k c p Hk) Hfile Hp)
    as [Hp' Hfile'].
  destruct (step_procs tmpdir k st c p Hk) as [_ Hfiles].
  split.
  - intros k' c' p'. rewrite (step_lookup k k' st c p Hk).
    case_decide as Hkk; [|by apply Hprocs].
    by intros [= <- <-].
  - intros f'. rewrite Hfiles. by apply Hfile'.
Qed.

Lemma one_user_inv_run u sched st :
  race_inv st -> one_user_inv tmpdir u st -> one_user_inv tmpdir u (run sched st).
Proof.
  revert st. induction sched as [|k sched IH]; [done|].
  intros st Hinv Hone. simpl. apply IH.
  - by apply race_inv_step.
  - by apply one_user_inv_step.
Qed.

(** X14. Processes of one user whose masks leave the owner the bits
    [0o600] do not stand in one another's way: whatever the schedule that
    gives each its four steps, each of them returns the lock. *)
Theorem one_user_race_all_return u cs sched s k c p :
  s !! lock_path = None ->
  one_user u cs ->
  (forall j, (j < length cs)%nat -> (4 <= count_occ Nat.eq_dec sched j)%nat) ->
  procs (run sched (start cs s)) !! k = Some (c, p) ->
  p = Done (Ret lock_obj).
Proof.
  intros Hnone Hone Hfair Hk.
  pose proof (fair_all_done tmpdir cs sched s Hfair k c p Hk) as Hdone.
  destruct p as [| | | |r]; try done.
  assert (one_user_inv tmpdir u (start cs s)) as Hstart.
  { split; simpl.
    - intros k0 c0 p0 (c' & [= -> ->] & Hc')%list_lookup_fmap_Some.
      split; [|done]. unfold one_user in Hone.
      rewrite Forall_forall in Hone. apply Hone.
      apply list_elem_of_lookup. eauto.
    - intros f. by rewrite Hnone. }
  destruct (one_user_inv_run u sched _ (race_inv_start tmpdir cs s Hnone) Hstart)
    as [Hprocs _].
  destruct (Hprocs k c (Done r) Hk) as [_ Hr].
  assert (exits_ok tmpdir (run sched (start cs s))) as Hex.
  { apply exits_ok_run; [by apply race_inv_start|].
    intros k0 c0 r0. simpl.
    by intros (c' & [= _ ?] & _)%list_lookup_fmap_Some. }
  destruct (Hex k c r Hk) as [->| ->]; [done|by destruct (Hr PermissionError)].
Qed.

(** *** A lock file that is there *)

Lemma step1_idle c p s :
  is_Some (s !! lock_path) -> idle tmpdir p ->
  idle tmpdir (step1 c p s).1 /\ (step1 c p s).2 = s.
Proof.
  intros Hf. destruct p as [| | | |[r|e]]; simpl; try done.
  intros _. unfold exists_. by rewrite bool_decide_eq_true_2.
Qed.

Lemma idle_run sched st :
  is_Some (files st !! lock_path) ->
  (forall k c p, procs st !! k = Some (c, p) -> idle tmpdir p) ->
  files (run sched st) = files st /\
  (forall k c p, procs (run sched st) !! k = Some (c, p) -> idle tmpdir p).
Proof.
  revert st. induction sched as [|k sched IH]; [done|].
  intros st Hf Hidle. simpl.
  destruct (procs st !! k) as [[c p]|] eqn:Hk.
  2: { unfold step, AsmProcessLock.step. rewrite Hk. by apply IH. }
  destruct (step1_idle c p (files st) Hf (Hidle k c p Hk)) as [Hp' Hs'].
  destruct (step_procs tmpdir k st c p Hk) as [_ Hfiles].
  rewrite Hs' in Hfiles.
  destruct (IH (step k st)) as [Hrun Hall].
  - by rewrite Hfiles.
  - intros k' c' p'. rewrite (step_lookup k k' st c p Hk).
    case_decide as Hkk; [|by apply Hidle]. by intros [= <- <-].
  - split; [by rewrite Hrun|done].
Qed.

(** X15. A lock file that is there is left as it is: the constructor
    returns the lock without a system call that writes, whoever calls it,
    and in a race of any number of processes under any schedule the file
    system is never changed and no process raises. A file that is not
    readable and writable for every user stays so. *)
Theorem existing_lock_file_untouched c cs sched s f :
  s !! lock_path = Some f ->
  __init__ tmpdir c s = (Ret lock_obj, s) /\
  files (run sched (start cs s)) = s /\
  (forall k c' r, procs (run sched (start cs s)) !! k = Some (c', Done r) ->
     r = Ret lock_obj).
Proof.
  intros Hf. split; [by apply (init_existing tmpdir c s f)|].
  destruct (idle_run sched (start cs s)) as [Hfiles Hidle].
  - simpl. rewrite Hf. eauto.
  - intros k c0 p. simpl.
    by intros (c' & [= _ ->] & _)%list_lookup_fmap_Some.
  - split; [done|]. intros k c' r Hk.
    specialize (Hidle k c' (Done r) Hk). destruct r; simpl in *; [by subst|done].
Qed.

End lock_more.

(** ** The further properties of the race at work *)

Section lock_more_scenario.

Import AsmProcessLock LockRace LockScenario LockScenario2.

Local Open Scope Z_scope.

Lemma in_turn_fair (cs : list cred) :
  length cs = 2%nat ->
  forall j, (j < length cs)%nat -> (4 <= count_occ Nat.eq_dec in_turn j)%nat.
Proof. intros -> [|[|j]] Hj; simpl in *; lia. Qed.

Lemma in_turn_done :
  all_done (run tmp in_turn (start [alice; bob] ∅)).
Proof. apply fair_all_done, in_turn_fair. reflexivity. Qed.

Lemma race_has_winner_witness :
  (∅ : gmap string file) !! lock_path tmp = None /\
  [alice; bob] ≠ [] /\
  all_done (run tmp in_turn (start [alice; bob] ∅)) /\
  exists k c,
    procs (run tmp in_turn (start [alice; bob] ∅)) !! k
    = Some (c, Done (Ret (InterProcessLock_init (lock_path tmp)))).
Proof.
  split; [reflexivity|]. split; [discriminate|]. split; [exact in_turn_done|].
  apply (race_has_winner tmp [alice; bob] in_turn ∅);
    [reflexivity | discriminate | exact in_turn_done].
Defined.

Lemma race_exits_witness :
  (∅ : gmap string file) !! lock_path tmp = None /\
  procs (run tmp in_turn (start [alice; bob] ∅)) !! 1%nat
  = Some (bob, Done (Raise PermissionError)) /\
  (Raise (A := lock) PermissionError
   = Ret (InterProcessLock_init (lock_path tmp))
   \/ Raise (A := lock) PermissionError = Raise PermissionError).
Proof.
  split; [reflexivity|]. split; [reflexivity|].
  apply (race_exits tmp [alice; bob] in_turn ∅ 1%nat bob); reflexivity.
Defined.

Lemma one_user_race_all_return_witness :
  (∅ : gmap string file) !! lock_path tmp = None /\
  one_user 1000 [alice; alice_strict] /\
  (forall j, (j < length [alice; alice_strict])%nat ->
     (4 <= count_occ Nat.eq_dec in_turn j)%nat) /\
  procs (run tmp in_turn (start [alice; alice_strict] ∅)) !! 1%nat
  = Some (alice_strict, Done (Ret (InterProcessLock_init (lock_path tmp)))).
Proof.
  assert (one_user 1000 [alice; alice_strict]) as Hone.
  { repeat constructor. }
  pose proof (in_turn_fair [alice; alice_strict] eq_refl) as Hfair.
  split; [reflexivity|]. split; [exact Hone|]. split; [exact Hfair|].
  assert (exists p, procs (run tmp in_turn (start [alice; alice_strict] ∅)) !! 1%nat
                    = Some (alice_strict, p)) as [p Hp] by (eexists; reflexivity).
  rewrite Hp. f_equal. f_equal.
  apply (one_user_race_all_return tmp 1000 [alice; alice_strict] in_turn ∅
           1%nat alice_strict p); [reflexivity | exact Hone | exact Hfair | exact Hp].
Defined.

Lemma existing_lock_file_untouched_witness :
  root_only !! lock_path tmp
  = Some {| owner := 0; group := 0; mode := 384; content := "" |} /\
  __init__ tmp bob root_only
  = (Ret (InterProcessLock_init (lock_path tmp)), root_only) /\
  files (run tmp in_turn (start [alice; bob] root_only)) = root_only /\
  (forall k c' r,
     procs (run tmp in_turn (start [alice; bob] root_only)) !! k
     = Some (c', Done r) ->
     r = Ret (InterProcessLock_init (lock_path tmp))).
Proof.
  split; [reflexivity|].
  apply (existing_lock_file_untouched tmp bob [alice; bob] in_turn root_only
           {| owner := 0; group := 0; mode := 384; content := "" |}).
  reflexivity.
Defined.

(** The file of user 0 stays closed to [bob], who has been handed a lock on
    a file he may not open. *)
Example root_only_stays_closed :
  access bob {| owner := 0; group := 0; mode := 384; content := "" |} 6 = false.
Proof. reflexivity. Qed.

End lock_more_scenario.

(** ** Exit codes *)

Section exit_codes.

Import Main Commands.

Local Open Scope Z_scope.

Lemma sum_ord_nonneg s : 0 <= sum_ord s.
Proof. induction s as [|c s IH]; simpl; lia. Qed.

(** X16. The exit code of an exception class is a failure status that fits
    a byte: between 1 and 255, whatever the name of the class. *)
Theorem get_error_code_range name : 1 <= get_error_code name <= 255.
Proof.
  unfold get_error_code.
  pose proof (Z.mod_pos_bound (sum_ord name) 255). lia.
Qed.

Lemma sum_ord_list s :
  sum_ord s
  = foldr (fun c z => Z.of_nat (nat_of_ascii c) + z) 0
      (String.list_ascii_of_string s).
Proof. induction s as [|c s IH]; simpl; [done|]. by rewrite IH. Qed.

(** X17. The exit code depends on the letters of the class name, not on
    their order: two classes whose names are permutations of one another
    exit with the same code. *)
Theorem get_error_code_permutation a b :
  String.list_ascii_of_string a ≡ₚ String.list_ascii_of_string b ->
  get_error_code a = get_error_code b.
Proof.
  intros Hp. unfold get_error_code. rewrite !sum_ord_list.
  f_equal. f_equal. induction Hp; simpl; lia.
Qed.

Lemma get_error_code_permutation_witness :
  String.list_ascii_of_string "SkillModified"
  ≡ₚ String.list_ascii_of_string "ModifiedSkill" /\
  get_error_code "SkillModified" = get_error_code "ModifiedSkill".
Proof.
  assert (String.list_ascii_of_string "SkillModified"
          ≡ₚ String.list_ascii_of_string "ModifiedSkill") as Hp.
  { change (String.list_ascii_of_string "SkillModified")
      with (String.list_ascii_of_string "Skill"
              ++ String.list_ascii_of_string "Modified").
    change (String.list_ascii_of_string "ModifiedSkill")
      with (String.list_ascii_of_string "Modified"
              ++ String.list_ascii_of_string "Skill").
    apply Permutation_app_comm. }
  split; [exact Hp|].
  apply (get_error_code_permutation "SkillModified" "ModifiedSkill" Hp).
Defined.

Context {St : Type}.
Variable main_functions : action -> St -> outcome pyval * St.

(** The status of [main] once the lock is acquired. *)
Lemma main_result a (s : state St) :
  (main main_functions (Ret tt) a s).1
  = exit_of (main_functions a (skills s)).1.
Proof.
  unfold main, with_, lock_enter.
  set (s1 := emit Acquire _).
  pose proof (body_trace main_functions a s1) as Hbody.
  destruct (body main_functions a s1) as [r s2]. by destruct Hbody as [-> _].
Qed.

(** X18. With the lock acquired, [main] returns 0 exactly when the command
    function returned something other than [False]; every status it returns
    is in 0..255; and it raises exactly when the command function raised an
    exception that is not an [AsmException], the same one. *)
Theorem main_exit_status a (s : state St) :
  let r := (main main_functions (Ret tt) a s).1 in
  let c := (main_functions a (skills s)).1 in
  (r = Ret 0 <-> exists v, c = Ret v /\ v ≠ PyFalse) /\
  (forall n, r = Ret n -> 0 <= n <= 255) /\
  (forall e, r = Raise e <-> c = Raise e /\ ~ is_asm e).
Proof.
  simpl. rewrite main_result.
  destruct (main_functions a (skills s)) as [[[|x|]|e] k]; simpl.
  - split; [|split].
    + split; [done|]. by intros (v & [= <-] & ?).
    + intros n [= <-]. lia.
    + intros e. split; [done|]. by intros [? _].
  - split; [|split].
    + split; [eauto|done].
    + intros n [= <-]. lia.
    + intros e. split; [done|]. by intros [? _].
  - split; [|split].
    + split; [eauto|done].
    + intros n [= <-]. lia.
    + intros e. split; [done|]. by intros [? _].
  - assert (~ is_asm e ->
      (Raise (A := Z) e = Ret 0 <-> exists v, Raise (A := pyval) e = Ret v /\ v ≠ PyFalse) /\
      (forall n, Raise (A := Z) e = Ret n -> 0 <= n <= 255) /\
      (forall e', Raise (A := Z) e = Raise e'
                  <-> Raise (A := pyval) e = Raise e' /\ ~ is_asm e'))
      as Hother.
    { intros Hn. split; [|split].
      - split; [intros [=]|]. by intros (v & [=] & _).
      - by intros n [=].
      - intros e'. split; [|by intros [[= <-] _]].
        by intros [= <-]. }
    destruct e as [| | | |cls msg|cls msg]; simpl;
      try (apply Hother; exact (fun x => x)).
    pose proof (get_error_code_range cls) as Hcode.
    split; [|split].
    + split; [intros [= Hz]; lia|]. by intros (v & [=] & _).
    + intros n [= <-]. lia.
    + intros e'. split; [by intros [=]|]. intros [[= <-] Hn]. by destruct Hn.
Qed.

End exit_codes.

(** ** What [main] prints, the listings, [skill_info] *)

Section commands_facts.

Import Main Commands.

Context {St : Type}.
Variable main_functions : action -> St -> outcome pyval * St.

Lemma printed_app tr1 tr2 : printed (tr1 ++ tr2) = printed tr1 ++ printed tr2.
Proof. apply omap_app. Qed.

(** X19. With the lock acquired, [main] hands to [printer] the string a
    command function returns, or the line [cls: msg] of an [AsmException],
    and nothing else: a command that returns no string, or raises another
    exception, prints nothing. *)
Theorem main_output a (s : state St) :
  printed (trace (main main_functions (Ret tt) a s).2)
  = printed (trace s)
    ++ match (main_functions a (skills s)).1 with
       | Ret (PyStr x) => [x]
       | Raise (AsmException cls msg) => [cls +:+ ": " +:+ msg]
       | _ => []
       end.
Proof.
  unfold main, with_, lock_enter, body, call; simpl.
  destruct (main_functions a (skills s)) as [[[|x|]|e] k]; simpl.
  4: destruct e; simpl.
  all: rewrite ?printed_app; simpl; by rewrite ?app_nil_r.
Qed.

(** *** Lines *)

Lemma one_line_app x y :
  one_line (x +:+ y) = one_line x && one_line y.
Proof.
  induction x as [|c x IH]; simpl; [done|]. rewrite IH. by rewrite andb_assoc.
Qed.

Lemma split_nl_one_line x : one_line x = true -> split_nl x = [x].
Proof.
  induction x as [|c x IH]; simpl; [done|].
  intros [Hc Hx]%andb_true_iff. apply negb_true_iff in Hc.
  by rewrite Hc, (IH Hx).
Qed.

Lemma split_nl_line x rest :
  one_line x = true ->
  split_nl (x +:+ String newline rest) = x :: split_nl rest.
Proof.
  induction x as [|c x IH]; simpl; [done|].
  intros [Hc Hx]%andb_true_iff. apply negb_true_iff in Hc.
  by rewrite Hc, (IH Hx).
Qed.

(** Joining lines with line breaks and splitting at line breaks. *)
Lemma split_join (parts : list string) :
  Forall (fun x => one_line x = true) parts ->
  split_nl (join nl parts) = match parts with [] => [""] | _ => parts end.
Proof.
  induction 1 as [|x parts Hx Hparts IH]; [done|].
  destruct parts as [|y parts].
  - simpl. by apply split_nl_one_line.
  - change (join nl (x :: y :: parts))
      with (x +:+ String newline (join nl (y :: parts))).
    by rewrite (split_nl_line _ _ Hx), IH.
Qed.

Lemma Forall_filter_map {A B} (P : B -> Prop) (f g : A -> B) (keep : A -> bool)
    (l : list A) :
  (forall a, P (g a) -> P (f a)) ->
  Forall (fun a => P (g a)) l ->
  Forall P (List.map f (List.filter keep l)).
Proof.
  intros Hfg. induction 1 as [|a l Ha Hl IH]; simpl; [constructor|].
  destruct (keep a); simpl; [constructor; auto|done].
Qed.

(** X20. The output of [list] reads back line by line: when no skill name
    holds a line break, splitting the output at the line breaks gives the
    listed skills, one a line, in the order of [asm.list()], marked or not;
    with no skill to list the output is the empty string, one empty line. *)
Theorem listing_reads_back raw installed skills :
  Forall (fun s => one_line (name s) = true) skills ->
  split_nl (list_command raw installed skills)
  = match list_lines raw installed skills with
    | [] => [""]
    | _ => list_lines raw installed skills
    end.
Proof.
  intros Hnames. apply (split_join (list_lines raw installed skills)).
  apply (Forall_filter_map (fun x => one_line x = true) _ name); [|done].
  intros s Hs. rewrite one_line_app, Hs. by destruct (is_local s && negb raw).
Qed.

Lemma filter_all {A} (l : list A) : List.filter (fun _ => true) l = l.
Proof. induction l as [|a l IH]; simpl; [done|]. by rewrite IH. Qed.

Lemma filter_sublist {A} (keep : A -> bool) (l : list A) :
  List.filter keep l `sublist_of` l.
Proof.
  induction l as [|a l IH]; simpl; [constructor|].
  destruct (keep a); by constructor.
Qed.

Lemma append_empty x : x +:+ "" = x.
Proof.
  induction x as [|c x IH]; [done|].
  change (String c x +:+ "") with (String c (x +:+ "")). by rewrite IH.
Qed.

Lemma map_sublist {A B} (f : A -> B) (l k : list A) :
  l `sublist_of` k -> List.map f l `sublist_of` List.map f k.
Proof. induction 1; simpl; by constructor. Qed.

(** X21. The listings nest: [list] without [-i] shows every skill of
    [asm.list()], [list -i] shows some of the lines of [list], and [search]
    shows some of the lines of [list --raw], all in the order of
    [asm.list()]. *)
Theorem listings_nest raw score skills :
  length (list_lines raw false skills) = length skills /\
  list_lines raw true skills `sublist_of` list_lines raw false skills /\
  search_lines score skills `sublist_of` list_lines true false skills.
Proof.
  unfold list_lines, search_lines; simpl. rewrite !filter_all.
  split; [apply length_map|]. split.
  - apply map_sublist, filter_sublist.
  - replace (List.map (fun s => name s +:+ (if is_local s && false then installed_mark else "")) skills)
      with (List.map name skills).
    + apply map_sublist, filter_sublist.
    + apply map_ext. intros s. by rewrite andb_false_r, append_empty.
Qed.

(** X22. [skill_info] prints four lines that read back, when the fields
    shown hold no line break; the path of a skill that is not installed is
    not among them. *)
Theorem skill_info_reads_back s :
  one_line (name s) = true ->
  one_line (author s) = true ->
  one_line (url s) = true ->
  (is_local s = true -> one_line (path s) = true) ->
  split_nl (skill_info s) = skill_info_lines s /\
  (is_local s = false ->
     forall p, skill_info
                 {| name := name s; author := author s; url := url s;
                    path := p; is_local := false |}
               = skill_info s).
Proof.
  intros Hn Ha Hu Hp. split.
  - apply (split_join (skill_info_lines s)).
    repeat constructor; rewrite one_line_app; simpl; rewrite ?Hn, ?Ha, ?Hu;
      try done.
    destruct (is_local s); [by apply Hp|done].
  - intros Hl p. unfold skill_info, skill_info_lines; simpl. by rewrite Hl.
Qed.

End commands_facts.

Section commands_scenario.

Import Commands CommandsScenario.

Example list_output :
  list_command false false [weather; timer]
  = "weather" +:+ String tab "[installed]" +:+ String newline "timer" /\
  list_command true true [weather; timer] = "weather" /\
  list_command false true [timer] = "".
Proof. by repeat split. Qed.

Lemma listing_reads_back_witness :
  Forall (fun s => one_line (name s) = true) [weather; timer] /\
  split_nl (list_command false false [weather; timer])
  = ["weather" +:+ installed_mark; "timer"].
Proof.
  assert (Forall (fun s => one_line (name s) = true) [weather; timer]) as Hn
    by (repeat constructor).
  split; [exact Hn|].
  apply (listing_reads_back false false [weather; timer] Hn).
Defined.

Lemma skill_info_reads_back_witness :
  one_line (name timer) = true /\
  one_line (author timer) = true /\
  one_line (url timer) = true /\
  (is_local timer = true -> one_line (path timer) = true) /\
  split_nl (skill_info timer)
  = ["Name: timer"; "Author: None"; "Url: https://example.org/timer";
     "Path: Not installed"] /\
  (is_local timer = false ->
     forall p, skill_info
                 {| name := name timer; author := author timer;
                    url := url timer; path := p; is_local := false |}
               = skill_info timer).
Proof.
  split; [reflexivity|]. split; [reflexivity|]. split; [reflexivity|].
  split; [discriminate|].
  apply (skill_info_reads_back timer); [reflexivity..|discriminate].
Defined.

End commands_scenario.

(** ** [Git] *)

Section git_facts.

Import GitEnv.

Context {A K R : Type}.
Variable git_command : string -> A -> gmap string string -> K -> R.

(** X23. Every git command called through [Git] runs with
    [GIT_ASKPASS=echo], also when the caller passes an [env] that sets
    [GIT_ASKPASS] otherwise; the other variables of the caller's [env], the
    arguments and the other keywords go through as they are. *)
Theorem askpass_forced item args (kw : kwargs K) :
  exists e,
    wrapper git_command env item args kw
    = git_command item args e (kw_rest kw) /\
    e !! "GIT_ASKPASS" = Some "echo" /\
    forall k, k ≠ "GIT_ASKPASS" -> e !! k = default ∅ (kw_env kw) !! k.
Proof.
  eexists. split; [reflexivity|]. unfold update, env. split.
  - apply lookup_union_Some_l, lookup_singleton_eq.
  - intros k Hk. apply lookup_union_r. by apply lookup_singleton_ne.
Qed.

End git_facts.

(** * The expiry test in binary64 *)

(** ** Rounding *)

Section binary64_facts.

Import Binary64.

Lemma pow2_pos k : 0 < pow2 k.
Proof. by apply Qpower_0_lt. Qed.

Lemma pow2_add a b : pow2 (a + b) == pow2 a * pow2 b.
Proof. by apply Qpower_plus. Qed.

Lemma pow2_le a b : (a <= b)%Z -> pow2 a <= pow2 b.
Proof. intros H. by apply Qpower_le_compat_l. Qed.

Lemma pow2_int k : (0 <= k)%Z -> pow2 k == inject_Z (2 ^ k).
Proof. intros H. unfold pow2. by rewrite (Zpower_Qpower 2 k H). Qed.

Lemma pow2_cancel k : pow2 k * pow2 (- k) == 1.
Proof. rewrite <- pow2_add, Z.add_opp_diag_r. reflexivity. Qed.

(** [ilog2 x] is the exponent of the power of two at or below [x]. *)
Lemma ilog2_spec x :
  0 < x -> pow2 (ilog2 x) <= x /\ x < pow2 (ilog2 x + 1).
Proof.
  intros Hx. destruct x as [n d].
  assert (0 < n)%Z as Hn by (unfold Qlt in Hx; simpl in Hx; lia).
  pose proof (Z.log2_spec n Hn) as [Hn1 Hn2].
  pose proof (Z.log2_spec (Z.pos d) eq_refl) as [Hd1 Hd2].
  pose proof (Z.log2_nonneg n) as Hln.
  pose proof (Z.log2_nonneg (Z.pos d)) as Hld.
  set (ln := Z.log2 n) in *. set (ld := Z.log2 (Z.pos d)) in *.
  assert ((n # d) * inject_Z (Z.pos d) == inject_Z n) as Hnd.
  { unfold Qeq; simpl. lia. }
  assert (0 < inject_Z (Z.pos d)) as Hdpos by reflexivity.
  assert (n # d < pow2 (ln - ld + 1)) as Hup.
  { replace (ln - ld + 1)%Z with ((ln + 1) + - ld)%Z by lia.
    rewrite pow2_add. unfold pow2 at 2. rewrite Qpower_opp.
    apply Qlt_shift_div_l; [apply pow2_pos|].
    apply Qle_lt_trans with ((n # d) * inject_Z (Z.pos d)).
    - apply Qmult_le_l; [done|]. fold (pow2 ld). rewrite (pow2_int ld Hld).
      rewrite <- Zle_Qle. lia.
    - rewrite Hnd, (pow2_int (ln + 1)) by lia. rewrite <- Zlt_Qlt.
      by rewrite <- Z.add_1_r in Hn2. }
  assert (pow2 (ln - ld - 1) <= n # d) as Hlow.
  { replace (ln - ld - 1)%Z with (ln + - (ld + 1))%Z by lia.
    rewrite pow2_add. unfold pow2 at 2. rewrite Qpower_opp.
    apply Qle_shift_div_r; [apply pow2_pos|].
    apply Qle_trans with ((n # d) * inject_Z (Z.pos d)).
    - rewrite Hnd, (pow2_int ln Hln). rewrite <- Zle_Qle. lia.
    - apply Qmult_le_l; [done|]. fold (pow2 (ld + 1)).
      rewrite (pow2_int (ld + 1)) by lia. rewrite <- Zle_Qle.
      rewrite <- Z.add_1_r in Hd2. lia. }
  unfold ilog2. simpl Qnum. simpl Qden. fold ln ld.
  destruct (Qle_bool (pow2 (ln - ld)) (n # d)) eqn:Hb.
  - apply Qle_bool_iff in Hb. by split.
  - split; [done|].
    replace (ln - ld - 1 + 1)%Z with (ln - ld)%Z by lia.
    apply Qnot_le_lt. intros Hle. apply Qle_bool_iff in Hle. congruence.
Qed.

Lemma ilog2_mono x y : 0 < x -> x <= y -> (ilog2 x <= ilog2 y)%Z.
Proof.
  intros Hx Hxy.
  destruct (ilog2_spec x Hx) as [Hx1 _].
  destruct (ilog2_spec y) as [_ Hy2]; [lra|].
  destruct (Z_le_gt_dec (ilog2 x) (ilog2 y)) as [|Hgt]; [done|].
  assert (pow2 (ilog2 y + 1) <= pow2 (ilog2 x)) by (apply pow2_le; lia).
  lra.
Qed.

Lemma rne_bounds m : (Qfloor m <= rne m <= Qfloor m + 1)%Z.
Proof.
  unfold rne. destruct (Qcompare _ _); [|lia..].
  destruct (Z.even _); lia.
Qed.

(** Rounding to the nearest integer keeps the order. *)
Lemma rne_mono m m' : m <= m' -> (rne m <= rne m')%Z.
Proof.
  intros Hm. pose proof (Qfloor_resp_le m m' Hm) as Hf.
  pose proof (rne_bounds m) as [_ Hb]. pose proof (rne_bounds m') as [Hb' _].
  destruct (Z.eq_dec (Qfloor m) (Qfloor m')) as [Heq|Hne]; [|lia].
  unfold rne. rewrite <- Heq.
  destruct (Qcompare_spec (m - inject_Z (Qfloor m)) (1 # 2)) as [H1|H1|H1];
    destruct (Qcompare_spec (m' - inject_Z (Qfloor m)) (1 # 2)) as [H2|H2|H2];
    try lia; try (destruct (Z.even _); lia); lra.
Qed.

Lemma rne_int m n : m == inject_Z n -> rne m = n.
Proof.
  intros Hm. unfold rne. rewrite (Qfloor_comp _ _ Hm), Qfloor_Z.
  destruct (Qcompare_spec (m - inject_Z n) (1 # 2)) as [H|H|H]; [lra|done|lra].
Qed.

Lemma rne_nonneg m : 0 <= m -> (0 <= rne m)%Z.
Proof.
  intros Hm. rewrite <- (rne_int 0 0) by reflexivity. by apply rne_mono.
Qed.

Lemma round_pos_nonneg x : 0 < x -> 0 <= round_pos x.
Proof.
  intros Hx. unfold round_pos.
  apply Qmult_le_0_compat; [|apply Qlt_le_weak, pow2_pos].
  change 0 with (inject_Z 0). rewrite <- Zle_Qle. apply rne_nonneg.
  apply Qmult_le_0_compat; [lra|apply Qlt_le_weak, pow2_pos].
Qed.

(** A power of two in reach of the exponent [e] is left as it is. *)
Lemma rne_pow2 k e :
  (e <= k)%Z -> inject_Z (rne (pow2 k * pow2 (- e))) * pow2 e == pow2 k.
Proof.
  intros Hke.
  assert (pow2 k * pow2 (- e) == inject_Z (2 ^ (k - e))) as Hint.
  { rewrite <- pow2_add. replace (k + - e)%Z with (k - e)%Z by lia.
    apply pow2_int. lia. }
  rewrite (rne_int _ _ Hint), <- Hint, <- Qmult_assoc.
  rewrite (Qmult_comm (pow2 (- e))), pow2_cancel. ring.
Qed.

Lemma scaled_rne_mono x y e :
  x <= y ->
  inject_Z (rne (x * pow2 (- e))) * pow2 e
  <= inject_Z (rne (y * pow2 (- e))) * pow2 e.
Proof.
  intros Hxy. apply Qmult_le_compat_r; [|apply Qlt_le_weak, pow2_pos].
  rewrite <- Zle_Qle. apply rne_mono.
  apply Qmult_le_compat_r; [done|apply Qlt_le_weak, pow2_pos].
Qed.

(** Rounding keeps the order: within a binade by [rne_mono], across binades
    through the power of two between them. *)
Lemma round_pos_mono x y : 0 < x -> x <= y -> round_pos x <= round_pos y.
Proof.
  intros Hx Hxy. assert (0 < y) as Hy by lra.
  pose proof (ilog2_mono x y Hx Hxy) as Hlog. unfold round_pos.
  destruct (Z.eq_dec (ulp_exp x) (ulp_exp y)) as [Heq|Hne].
  - rewrite Heq. by apply scaled_rne_mono.
  - assert (ulp_exp x < ilog2 y - 52 /\ ulp_exp y = ilog2 y - 52
            /\ ilog2 x + 1 <= ilog2 y)%Z as (Hex & Hey & Hl).
    { unfold ulp_exp in *. lia. }
    destruct (ilog2_spec x Hx) as [_ Hx2]. destruct (ilog2_spec y Hy) as [Hy1 _].
    assert (x <= pow2 (ilog2 y)) as HxC.
    { apply Qle_trans with (pow2 (ilog2 x + 1)); [lra|by apply pow2_le]. }
    apply Qle_trans with (pow2 (ilog2 y)).
    + rewrite <- (rne_pow2 (ilog2 y) (ulp_exp x)) by lia.
      by apply scaled_rne_mono.
    + rewrite <- (rne_pow2 (ilog2 y) (ulp_exp y)) at 1 by lia.
      by apply scaled_rne_mono.
Qed.

Lemma round_fin_mono x y : x <= y -> round_fin x <= round_fin y.
Proof.
  intros Hxy. unfold round_fin.
  destruct (Qcompare_spec x 0) as [Hx|Hx|Hx];
    destruct (Qcompare_spec y 0) as [Hy|Hy|Hy]; try lra.
  - by apply round_pos_nonneg.
  - pose proof (round_pos_nonneg (- x)). lra.
  - apply Qopp_le_compat, round_pos_mono; lra.
  - pose proof (round_pos_nonneg (- x)). pose proof (round_pos_nonneg y). lra.
  - by apply round_pos_mono.
Qed.

(** The rounded difference does not exceed a binary64 value that the exact
    difference does not exceed. *)
Lemma round64_le_float x t :
  x <= t -> is_float t -> xgtb (round64 x) t = false.
Proof.
  intros Hxt. unfold is_float, xeq, round64.
  pose proof (round_fin_mono x t Hxt) as Hm.
  destruct (Qle_bool (pow2 1024) (round_fin t)) eqn:Ht1; [done|].
  destruct (Qle_bool (round_fin t) (- pow2 1024)) eqn:Ht2; [done|].
  intros Ht.
  destruct (Qle_bool (pow2 1024) (round_fin x)) eqn:Hx1.
  { apply Qle_bool_iff in Hx1.
    assert (Qle_bool (pow2 1024) (round_fin t) = true) as Habs
      by (apply Qle_bool_iff; lra).
    congruence. }
  destruct (Qle_bool (round_fin x) (- pow2 1024)); [done|]. simpl.
  apply Qgtb_false. lra.
Qed.

(** The rounded difference exceeds what a binary64 value exceeds that the
    exact difference reaches. *)
Lemma round64_ge_float x t u :
  is_float t -> t <= x -> u < t -> xgtb (round64 x) u = true.
Proof.
  unfold is_float, xeq, round64. intros Ht Htx Hut.
  pose proof (round_fin_mono t x Htx) as Hm.
  destruct (Qle_bool (pow2 1024) (round_fin t)) eqn:Ht1; [done|].
  destruct (Qle_bool (round_fin t) (- pow2 1024)) eqn:Ht2; [done|].
  destruct (Qle_bool (pow2 1024) (round_fin x)); [done|].
  destruct (Qle_bool (round_fin x) (- pow2 1024)) eqn:Hx2.
  { apply Qle_bool_iff in Hx2.
    assert (Qle_bool (round_fin t) (- pow2 1024) = true) as Habs
      by (apply Qle_bool_iff; lra).
    congruence. }
  simpl. apply Qgtb_true. lra.
Qed.

(** The two facts for [a - b]. *)
Lemma fsub_le_float a b t :
  a - b <= t -> is_float t -> xgtb (fsub a b) t = false.
Proof. apply round64_le_float. Qed.

Lemma fsub_ge_float a b t u :
  is_float t -> t <= a - b -> u < t -> xgtb (fsub a b) u = true.
Proof. apply round64_ge_float. Qed.

End binary64_facts.

(** ** The read with the float subtraction *)

Section cache64_facts.

Import CachedProperty Binary64.

Context {V S : Type}.
Implicit Types (d : cached_property V S) (w : world V S) (i j : positive).
Implicit Types (now : Q) (v : V) (name : string).

(** The [try] of the two readings of the expiry test, side by side. *)
Lemma try_cached64_entry d i now w :
  CachedProperty64.try_cached d i now w =
    match attrs w !! i with
    | None => Raise AttributeError
    | Some _ =>
        match entry_of w i (__name__ d) with
        | None => Raise KeyError
        | Some (value, last_update) =>
            if Qgtb (ttl d) 0 && xgtb (fsub now last_update) (ttl d)
            then Raise AttributeError else Ret value
        end
    end.
Proof.
  unfold CachedProperty64.try_cached, entry_of, cache_dict, getattr_cache.
  by destruct (attrs w !! i).
Qed.

(** Without an entry the read computes. *)
Lemma get64_no_entry d i now w :
  entry_of w i (__name__ d) = None ->
  CachedProperty64.__get__ d i now w = recompute d i now w.
Proof.
  intros He. unfold CachedProperty64.__get__.
  rewrite try_cached64_entry, He. by destruct (attrs w !! i).
Qed.

(** With an entry the read goes by the test, as the code evaluates it. *)
Lemma get64_entry d i now w v last_update :
  entry_of w i (__name__ d) = Some (v, last_update) ->
  CachedProperty64.__get__ d i now w
  = if Qgtb (ttl d) 0 && xgtb (fsub now last_update) (ttl d)
    then recompute d i now w else (Ret v, w).
Proof.
  intros He. unfold CachedProperty64.__get__.
  rewrite try_cached64_entry, He.
  destruct (attrs w !! i) eqn:Ha.
  2: { by rewrite entry_of_no_attr in He. }
  by destruct (Qgtb (ttl d) 0 && xgtb (fsub now last_update) (ttl d)).
Qed.

(** The two readings of the test part only in the rounding gap: the elapsed
    time is above a binary64 [ttl] and the float difference is not. There the
    code returns the cached value. *)
Lemma binary64_agrees d i now w :
  is_float (ttl d) ->
  CachedProperty64.__get__ d i now w = CachedProperty.__get__ d i now w \/
  exists v last_update,
    entry_of w i (__name__ d) = Some (v, last_update) /\
    0 < ttl d /\ ttl d < now - last_update /\
    xgtb (fsub now last_update) (ttl d) = false /\
    CachedProperty64.__get__ d i now w = (Ret v, w).
Proof.
  intros Hfl.
  destruct (entry_of w i (__name__ d)) as [[v lu]|] eqn:He.
  2: { left. rewrite (get64_no_entry d i now w He). symmetry. apply get_miss.
       unfold is_miss. by rewrite He. }
  rewrite (get64_entry d i now w v lu He).
  destruct (Qlt_le_dec 0 (ttl d)) as [Hpos|Hnon].
  - apply Qgtb_true in Hpos as Hb. rewrite Hb. simpl.
    destruct (xgtb (fsub now lu) (ttl d)) eqn:Hx.
    + left. symmetry. apply get_miss. unfold is_miss. rewrite He.
      split; [done|]. apply Qnot_le_lt. intros Hle.
      rewrite (fsub_le_float _ _ _ Hle Hfl) in Hx. discriminate.
    + destruct (Qlt_le_dec (ttl d) (now - lu)) as [Hexp|Hin].
      * right. by exists v, lu.
      * left. symmetry. apply (get_hit d i now w v lu He). by right.
  - assert (Qgtb (ttl d) 0 = false) as -> by by apply Qgtb_false.
    left. symmetry. apply (get_hit d i now w v lu He). by left.
Qed.

(** C2, as amended. For a time-to-live above zero, a read at which
    [now - last_update], as the code evaluates it in binary64, is greater
    than [ttl] invokes the wrapped computation again and returns what it
    returns; a value [v] it returns is stored as [(v, now)], whether or not
    it differs from the old one. *)
Theorem float_expired_entry_recomputed d i now w v0 last_update :
  0 < ttl d ->
  entry_of w i (__name__ d) = Some (v0, last_update) ->
  xgtb (fsub now last_update) (ttl d) = true ->
  let '(r, w') := CachedProperty64.__get__ d i now w in
  r = (fget d i (env w)).1 /\
  env w' = (fget d i (env w)).2 /\
  calls w' = calls w ++ [(__name__ d, i)] /\
  forall v, r = Ret v -> entry_of w' i (__name__ d) = Some (v, now).
Proof.
  intros Httl He Hexp.
  rewrite (get64_entry d i now w v0 last_update He), Hexp.
  apply Qgtb_true in Httl. rewrite Httl. simpl.
  pose proof (recompute_calls d i now w) as [Hr Hc].
  pose proof (recompute_env d i now w) as Hv.
  destruct (fget d i (env w)) as [[v|x] e] eqn:Hf.
  - destruct (recompute_ret d i now w v e Hf) as (_ & Hent & _).
    destruct (recompute d i now w) as [r w']; simpl in *.
    repeat split; try done. intros v' Hv'. congruence.
  - destruct (recompute d i now w) as [r w']; simpl in *.
    repeat split; try done. intros v' Hv'. congruence.
Qed.

(** The elapsed time that is enough for the float difference to exceed
    [ttl]: one that reaches a binary64 value above [ttl]. *)
Lemma float_expired_when_past d now last_update t :
  is_float t -> ttl d < t -> t <= now - last_update ->
  xgtb (fsub now last_update) (ttl d) = true.
Proof. intros Ht Hlt Hle. by apply (fsub_ge_float _ _ t). Qed.

(** X1. With an entry [(v, last_update)] in place and a [ttl] that is a
    binary64 value, a read invokes the wrapped computation only when
    [ttl > 0] and more than [ttl] seconds have gone by since [last_update];
    when at most [ttl] seconds have gone by, or [ttl <= 0], it returns [v]
    and nothing changes. It invokes the computation exactly when [ttl > 0]
    and the float difference [now - last_update] is greater than [ttl]. *)
Theorem recomputed_only_after_ttl d i now w v last_update :
  entry_of w i (__name__ d) = Some (v, last_update) ->
  is_float (ttl d) ->
  let '(r, w') := CachedProperty64.__get__ d i now w in
  (calls w' = calls w ++ [(__name__ d, i)]
   -> 0 < ttl d /\ ttl d < now - last_update) /\
  (ttl d <= 0 \/ now - last_update <= ttl d -> w' = w /\ r = Ret v) /\
  (calls w' = calls w ++ [(__name__ d, i)]
   <-> 0 < ttl d /\ xgtb (fsub now last_update) (ttl d) = true).
Proof.
  intros He Hfl. rewrite (get64_entry d i now w v last_update He).
  destruct (Qlt_le_dec 0 (ttl d)) as [Hpos|Hnon].
  - apply Qgtb_true in Hpos as Hb. rewrite Hb. simpl.
    destruct (xgtb (fsub now last_update) (ttl d)) eqn:Hx.
    + assert (ttl d < now - last_update) as Hexp.
      { apply Qnot_le_lt. intros Hle.
        rewrite (fsub_le_float _ _ _ Hle Hfl) in Hx. discriminate. }
      pose proof (recompute_calls d i now w) as [_ Hc].
      destruct (recompute d i now w) as [r w']; simpl in *.
      split; [done|]. split; [|done]. intros [?|?]; lra.
    + split; [|split].
      * intros Hc. by destruct (app_one_neq _ _ (eq_sym Hc)).
      * done.
      * split; [|by intros [_ ?]].
        intros Hc. by destruct (app_one_neq _ _ (eq_sym Hc)).
  - assert (Qgtb (ttl d) 0 = false) as -> by by apply Qgtb_false.
    simpl. split; [|split].
    + intros Hc. by destruct (app_one_neq _ _ (eq_sym Hc)).
    + done.
    + split; [|intros [? _]; lra].
      intros Hc. by destruct (app_one_neq _ _ (eq_sym Hc)).
Qed.

(** X11. A descriptor built without a time-to-live has the default of 300
    seconds: an entry is returned up to and including 300 seconds after it
    was computed; a read recomputes it when the float difference
    [now - last_update] is greater than 300, and only when more than 300
    seconds have gone by. *)
Theorem default_ttl_300_seconds name (f : positive -> S -> outcome V * S)
    i now w v last_update :
  let d := decorate None name f in
  entry_of w i name = Some (v, last_update) ->
  (now - last_update <= 300 ->
     CachedProperty64.__get__ d i now w = (Ret v, w)) /\
  (xgtb (fsub now last_update) 300 = true ->
     calls (CachedProperty64.__get__ d i now w).2 = calls w ++ [(name, i)]) /\
  (calls (CachedProperty64.__get__ d i now w).2 = calls w ++ [(name, i)] ->
     300 < now - last_update).
Proof.
  intros d He.
  assert (is_float 300) as Hfl by (vm_compute; reflexivity).
  rewrite (get64_entry d i now w v last_update He).
  change (ttl d) with 300. change (Qgtb 300 0) with true.
  rewrite andb_true_l.
  destruct (xgtb (fsub now last_update) 300) eqn:Hx.
  - assert (300 < now - last_update) as Hexp.
    { apply Qnot_le_lt. intros Hle.
      rewrite (fsub_le_float _ _ _ Hle Hfl) in Hx. discriminate. }
    split; [intros; lra|]. split; [|done]. intros _. apply recompute_calls.
  - split; [done|]. split; [done|].
    intros Hc. by destruct (app_one_neq _ _ (eq_sym Hc)).
Qed.

End cache64_facts.

(** ** The binary64 test at work *)

Section cache64_scenario.

Import CachedProperty Binary64 Scenario Scenario64.

(** Closes a goal on concrete data by evaluation. *)
Ltac computed :=
  vm_compute;
  repeat match goal with |- _ /\ _ => split end;
  first [reflexivity | discriminate | exact I | intros; discriminate].

(** The readings are floats, the literals [0.1] and [300.1] rounded. *)
Example readings_are_floats :
  is_float f0_1 /\ is_float f300_1 /\ is_float f1_5 /\ is_float 300 /\
  xeq (round64 (1 # 10)) f0_1 /\ xeq (round64 (3001 # 10)) f300_1.
Proof. computed. Qed.

(** C2 as stated does not hold of the code. The entry is computed at 0.1 s
    and read at 300.1 s with a time-to-live of 300 s: [now - last_update] is
    greater than [ttl], by [819 * 2 ** -55] seconds, but the float subtraction
    gives 300.0, which is not greater than 300, and the read returns the
    cached value: the wrapped computation is not invoked and the entry keeps
    its timestamp. *)
Lemma expired_by_the_clock_still_served :
  0 < ttl five_minutes /\
  entry_of v1 1 (__name__ five_minutes) = Some (0%nat, f0_1) /\
  ttl five_minutes < f300_1 - f0_1 /\
  f300_1 - f0_1 - ttl five_minutes == 819 # 36028797018963968 /\
  xeq (fsub f300_1 f0_1) 300 /\
  xgtb (fsub f300_1 f0_1) (ttl five_minutes) = false /\
  CachedProperty64.__get__ five_minutes 1 f300_1 v1 = (Ret 0%nat, v1) /\
  calls (CachedProperty64.__get__ five_minutes 1 f300_1 v1).2 = calls v1.
Proof. computed. Qed.

Lemma float_expired_entry_recomputed_witness :
  0 < ttl counter /\
  entry_of w2 1 (__name__ counter) = Some (0%nat, 0) /\
  xgtb (fsub f1_5 0) (ttl counter) = true /\
  let '(r, w') := CachedProperty64.__get__ counter 1 f1_5 w2 in
  r = (fget counter 1 (env w2)).1 /\
  env w' = (fget counter 1 (env w2)).2 /\
  calls w' = calls w2 ++ [(__name__ counter, 1%positive)] /\
  forall v, r = Ret v -> entry_of w' 1 (__name__ counter) = Some (v, f1_5).
Proof.
  split; [computed|]. split; [computed|]. split; [computed|].
  apply (float_expired_entry_recomputed counter 1 f1_5 w2 0%nat 0); computed.
Defined.

Lemma recomputed_only_after_ttl_witness :
  entry_of v1 1 (__name__ five_minutes) = Some (0%nat, f0_1) /\
  is_float (ttl five_minutes) /\
  let '(r, w') := CachedProperty64.__get__ five_minutes 1 f300_1 v1 in
  (calls w' = calls v1 ++ [(__name__ five_minutes, 1%positive)]
   -> 0 < ttl five_minutes /\ ttl five_minutes < f300_1 - f0_1) /\
  (ttl five_minutes <= 0 \/ f300_1 - f0_1 <= ttl five_minutes
   -> w' = v1 /\ r = Ret 0%nat) /\
  (calls w' = calls v1 ++ [(__name__ five_minutes, 1%positive)]
   <-> 0 < ttl five_minutes
       /\ xgtb (fsub f300_1 f0_1) (ttl five_minutes) = true).
Proof.
  assert (is_float (ttl five_minutes)) as Hfl by computed.
  split; [computed|]. split; [exact Hfl|].
  apply (recomputed_only_after_ttl five_minutes 1 f300_1 v1 0%nat f0_1);
    [computed | exact Hfl].
Defined.

Lemma default_ttl_300_seconds_witness :
  entry_of w1 1 "count" = Some (0%nat, 0) /\
  (300 - 0 <= 300 ->
     CachedProperty64.__get__ (decorate None "count" (fget counter)) 1 300 w1
     = (Ret 0%nat, w1)) /\
  (xgtb (fsub 300 0) 300 = true ->
     calls (CachedProperty64.__get__
              (decorate None "count" (fget counter)) 1 300 w1).2
     = calls w1 ++ [("count", 1%positive)]) /\
  (calls (CachedProperty64.__get__
            (decorate None "count" (fget counter)) 1 300 w1).2
   = calls w1 ++ [("count", 1%positive)] ->
     300 < 300 - 0).
Proof.
  split; [computed|].
  apply (default_ttl_300_seconds "count" (fget counter) 1 300 w1 0%nat 0).
  computed.
Defined.

End cache64_scenario.
